(** * cmd/changelog/generate.go: configuration check, commit walk and
      release-note aggregation

    A shallow embedding of the Go package [changelog]:
    - [Config.Sanitize],
    - [GenerateReleaseNotes] (the walk over paginated comparison responses,
      the classification call and the persistence of the state file),
    - [ChangeLog.PrintReleaseNotes].

    Go strings are byte strings ([string]); [int] is [Z]; Go maps keyed by
    [int] are [gmap Z]; calls to other packages (the GitHub client,
    [persistence], [github.GeneratePatchRelease]) are fields of an
    environment over an abstract world, and every such call is logged in a
    trace of events. Line numbers refer to generate.go. *)

From Stdlib Require Import Ascii.
From stdpp Require Import prelude strings gmap sorting pretty.

Set Default Proof Using "Type".
Set Warnings "-clear-no-such-hyp".

(** ** Go string primitives *)

Module GoStrings.

(** The line feed written [\n] in the Go source. *)
Definition LF : string := String (ascii_of_nat 10) EmptyString.

(** The escape byte written [\033] in the Go source. *)
Definition ESC : string := String (ascii_of_nat 27) EmptyString.

(** [strings.Split(s, sep)] for a one-byte separator: the pieces of [s]
    between the occurrences of [sep]; a string without [sep] (also the
    empty string) yields itself as the only piece. *)
Fixpoint Split (s : string) (sep : ascii) : list string :=
  match s with
  | EmptyString => [EmptyString]
  | String c s' =>
      if Ascii.eqb c sep then EmptyString :: Split s' sep
      else match Split s' sep with
           | [] => [String c EmptyString]
           | p :: ps => String c p :: ps
           end
  end.

(** [strings.Contains(s, substr)]. *)
Fixpoint Contains (s substr : string) : bool :=
  String.prefix substr s ||
  match s with
  | EmptyString => false
  | String _ s' => Contains s' substr
  end.

(** [len(s) == 0]. *)
Definition is_empty (s : string) : bool := String.eqb s "".

(** The verb [%d] applied to an [int]. *)
Definition fmt_d (n : Z) : string := pretty n.

(** Number of occurrences of a byte. *)
Fixpoint count_byte (c : ascii) (s : string) : nat :=
  match s with
  | EmptyString => 0
  | String d s' => (if Ascii.eqb d c then 1 else 0) + count_byte c s'
  end.

End GoStrings.
Import GoStrings.

(** ** Errors *)

(** A Go [error]: a message made by [fmt.Errorf], possibly wrapping (verb
    [%w]) the error it was made from. *)
Inductive error : Type :=
| errorString (msg : string)
| wrapError (msg : string) (cause : error).

(** [err.Error()]. *)
Definition Error (e : error) : string :=
  match e with
  | errorString msg => msg
  | wrapError msg _ => msg
  end.

(** [errors.Unwrap(err)]. *)
Definition Unwrap (e : error) : option error :=
  match e with
  | errorString _ => None
  | wrapError _ cause => Some cause
  end.

(** [fmt.Errorf(pre + "%w" + post, err)]. *)
Definition Errorf_w (pre : string) (err : error) (post : string) : error :=
  wrapError (pre +:+ Error err +:+ post) err.

(** ** Config *)

Record Config : Type := mkConfig {
  Base : string;
  Head : string;
  LastStable : string;
  StateFile : string;
  RepoName : string;
  Owner : string;
  Repo : string;
  CurrVer : string;
  NextVer : string;
  ForceMovePending : bool;
}.

(** The assignments [cfg.Owner = v], [cfg.Repo = v] and [cfg.Head = v]. *)
Definition set_Owner (v : string) (cfg : Config) : Config :=
  mkConfig cfg.(Base) cfg.(Head) cfg.(LastStable) cfg.(StateFile)
           cfg.(RepoName) v cfg.(Repo) cfg.(CurrVer) cfg.(NextVer)
           cfg.(ForceMovePending).

Definition set_Repo (v : string) (cfg : Config) : Config :=
  mkConfig cfg.(Base) cfg.(Head) cfg.(LastStable) cfg.(StateFile)
           cfg.(RepoName) cfg.(Owner) v cfg.(CurrVer) cfg.(NextVer)
           cfg.(ForceMovePending).

Definition set_Head (v : string) (cfg : Config) : Config :=
  mkConfig cfg.(Base) v cfg.(LastStable) cfg.(StateFile)
           cfg.(RepoName) cfg.(Owner) cfg.(Repo) cfg.(CurrVer) cfg.(NextVer)
           cfg.(ForceMovePending).

Module ConfigSanitize.

Definition err_repo_name (cfg : Config) : error :=
  errorString ("Invalid repo name: " +:+ cfg.(RepoName) +:+ LF).
Definition err_base : error :=
  errorString ("--base can't be empty" +:+ LF).
Definition err_head : error :=
  errorString ("--head can't be empty" +:+ LF).
Definition err_state_file : error :=
  errorString ("--state-file can't be empty" +:+ LF).
Definition err_last_stable : error :=
  errorString
    ("--last-stable can't contain letters, should be of the format 'x.y'"
     +:+ LF).

(** The body of [func (cfg Config) Sanitize() error], run on the
    callee's variable [cfg]. It returns the error ([None] is [nil])
    together with the value [cfg] holds when the body returns: the two
    assignments to [cfg.Owner] and [cfg.Repo] are visible there. *)
Definition Sanitize_body (cfg : Config) : option error * Config :=
  match Split cfg.(RepoName) "/" with
  | [owner; repo] =>
      let cfg := set_Owner owner cfg in
      let cfg := set_Repo repo cfg in
      if is_empty cfg.(Base) && is_empty cfg.(CurrVer) then
        (Some err_base, cfg)
      else if is_empty cfg.(Head) && is_empty cfg.(CurrVer) then
        (Some err_head, cfg)
      else if is_empty cfg.(StateFile) then
        (Some err_state_file, cfg)
      else if Contains cfg.(LastStable) "v" then
        (Some err_last_stable, cfg)
      else (None, cfg)
  | _ => (Some (err_repo_name cfg), cfg)
  end.

(** A method call with a value receiver: the callee's variable is a copy
    of the caller's, which is dropped when the call returns. The result
    is the returned value and the caller's variable after the call. *)
Definition call_value_receiver {T A} (body : T → A * T) (caller : T)
  : A * T :=
  let callee := caller in
  let '(a, _) := body callee in
  (a, caller).

(** [cfg.Sanitize()] as its caller sees it. *)
Definition Sanitize (cfg : Config) : option error * Config :=
  call_value_receiver Sanitize_body cfg.

End ConfigSanitize.

(** ** Pull requests and the two mappings *)

(** Modelled from the spec: the package [types] is not among the sources.
    A pull request has an author name, a free-text release note, a
    release-category label and the list of branch names it has been
    backported to; the field names are the ones this file reads. Its
    numeric identifier is the key under which a mapping holds it. *)
Record PullRequest : Type := mkPullRequest {
  ReleaseNote : string;
  ReleaseLabel : string;
  AuthorName : string;
  BackportBranches : list string;
}.

(** [types.PullRequests], a [map[int]PullRequest], and
    [types.BackportPRs], a [map[int]PullRequests]. Every backport PR owns
    its inner mapping: deleting from the inner mapping reached through one
    key of the outer mapping changes the value under that key only. *)
Abbreviation PullRequests := (gmap Z PullRequest).
Abbreviation BackportPRs := (gmap Z (gmap Z PullRequest)).

Record ChangeLog : Type := mkChangeLog {
  config : Config;
  prsWithUpstream : BackportPRs;
  listOfPrs : PullRequests;
}.

(** [var releaseNotes = map[string]string{...}]. *)
Definition releaseNotes : gmap string string :=
  list_to_map
    [ ("release-note/major", "**Major Changes:**");
      ("release-note/minor", "**Minor Changes:**");
      ("release-note/bug", "**Bugfixes:**");
      ("release-note/ci", "**CI Changes:**");
      ("release-note/misc", "**Misc Changes:**");
      ("release-note/none", "**Other Changes:**") ].

(** [releaseNotes[label]]: the zero value for a label that is no key. *)
Definition releaseNotes_at (label : string) : string :=
  default "" (releaseNotes !! label).

(** [var releaseNotesOrder = []string{...}]. *)
Definition releaseNotesOrder : list string :=
  [ "release-note/major"; "release-note/minor"; "release-note/bug";
    "release-note/ci"; "release-note/misc"; "release-note/none" ].

(** ** Events *)

(** What a run does to the outside, in the order it does it. The calls to
    other packages carry their arguments and what they returned. *)
Inductive event : Type :=
| EvPrinter (s : string)
| EvStdout (s : string)
| EvStderr (s : string)
| EvStat (file : string) (found : bool)
| EvLoadState (file : string) (err : option error)
| EvCompareCommits (owner repo base head : string)
    (res : list string + error)
| EvGeneratePatchRelease (backportPRs : BackportPRs)
    (listOfPRs : PullRequests) (shas : list string)
    (res : BackportPRs * PullRequests * list string * option error)
| EvStoreState (file : string) (prsWithUpstream : BackportPRs)
    (listOfPrs : PullRequests) (leftShas : list string)
    (err : option error).

(** ** The commit walk, lines 113-153 *)

(** How a piece of code that may index out of range ends. *)
Inductive outcome (A : Type) : Type :=
| Returns (a : A)
| Panics
| OutOfFuel.
Arguments Returns {A} a.
Arguments Panics {A}.
Arguments OutOfFuel {A}.

(** [l[i]] for a Go [int] index: [None] is the index-out-of-range panic. *)
Definition index {A} (l : list A) (i : Z) : option A :=
  if decide (i < 0)%Z then None else l !! Z.to_nat i.

(** [len(l)] as a Go [int]. *)
Definition len {A} (l : list A) : Z := Z.of_nat (length l).

(** [if sha != "" { shas = append(shas, sha) }]. *)
Definition append_sha (shas : list string) (sha : string) : list string :=
  if is_empty sha then shas else shas ++ [sha].

(** [for i := start; i != 0; i-- { sha := cc.Commits[i].GetSHA(); ... }]
    from a start [i] that is not negative: [i] iterations, reading
    [cc.Commits[i]] down to [cc.Commits[1]]. *)
Fixpoint collect (cc : list string) (i : nat) (shas : list string)
  : option (list string) :=
  match i with
  | O => Some shas
  | S j =>
      match cc !! S j with
      | None => None
      | Some sha => collect cc j (append_sha shas sha)
      end
  end.

(** The same loop from any [int]: a negative start is not [0], so the body
    runs and its first read [cc.Commits[start]] is out of range. *)
Definition collect_from (cc : list string) (start : Z) (shas : list string)
  : option (list string) :=
  if decide (start < 0)%Z then None else collect cc (Z.to_nat start) shas.

(** The variables the loop carries from one iteration to the next. *)
Record WalkState : Type := mkWalkState {
  wcfg : Config;
  cont : bool;
  prevHead : string;
  shas : list string;
}.

Inductive step_result : Type :=
| Continue (st : WalkState)
| Break (cfg : Config) (shas : list string)
| OutOfRange.

(** One iteration after a successful comparison: lines 122-152, where
    [cc] is [cc.Commits] with every commit read through [GetSHA()]. *)
Definition walk_step (st : WalkState) (cc : list string) : step_result :=
  match index cc (len cc - 1) with
  | None => OutOfRange
  | Some last_sha =>
      if String.eqb st.(prevHead) last_sha then
        match index cc 0 with
        | None => OutOfRange
        | Some sha => Break st.(wcfg) (append_sha st.(shas) sha)
        end
      else
        let start := (len cc - 1)%Z in
        let start := if st.(cont) then (start - 1)%Z else start in
        match collect_from cc start st.(shas) with
        | None => OutOfRange
        | Some shas' =>
            match index shas' (len shas' - 1) with
            | None => OutOfRange
            | Some head' =>
                Continue (mkWalkState (set_Head head' st.(wcfg)) true
                                      last_sha shas')
            end
        end
  end.

(** The state the loop starts from: [cont := false], [prevHead := ""],
    [shas] is the nil slice. *)
Definition walk_init (cfg : Config) : WalkState :=
  mkWalkState cfg false "" [].

(** ** The environment of [GenerateReleaseNotes] *)

(** The calls that leave the package, over a world [W] they read and
    change. [CompareCommits] returns [cc.Commits] or the error;
    [LoadState] and [GeneratePatchRelease] return all their results, the
    error last, as the Go functions do. *)
Record Env (W : Type) : Type := mkEnv {
  os_Stat : string → W → bool;
  LoadState : string → W →
    (BackportPRs * PullRequests * list string * option error) * W;
  StoreState : string → BackportPRs → PullRequests → list string → W →
    option error * W;
  CompareCommits : string → string → string → string → W →
    (list string + error) * W;
  GeneratePatchRelease : string → string → BackportPRs → PullRequests →
    list string → W →
    (BackportPRs * PullRequests * list string * option error) * W;
}.
Arguments os_Stat {W} _ _ _.
Arguments LoadState {W} _ _ _.
Arguments StoreState {W} _ _ _ _ _ _.
Arguments CompareCommits {W} _ _ _ _ _ _.
Arguments GeneratePatchRelease {W} _ _ _ _ _ _ _.

(** A state monad over the world and the trace of events so far. *)
Definition M (W A : Type) : Type := W * list event → A * (W * list event).

Definition ret {W A} (a : A) : M W A := λ s, (a, s).
Definition bind {W A B} (m : M W A) (k : A → M W B) : M W B :=
  λ s, let '(a, s') := m s in k a s'.

Notation "'let*' p ':=' m 'in' k" := (bind m (λ p, k))
  (at level 10, p pattern, m at level 100, k at level 200).
Notation "m ';;;' k" := (bind m (λ _, k))
  (at level 100, k at level 200, right associativity).

Definition log {W} (e : event) : M W unit :=
  λ '(w, tr), (tt, (w, tr ++ [e])).

(** [printer(s)]. *)
Definition printer {W} (s : string) : M W unit := log (EvPrinter s).

(** [fmt.Println(s)]. *)
Definition Println {W} (s : string) : M W unit := log (EvStdout (s +:+ LF)).

Definition do_Stat {W} (env : Env W) (file : string) : M W bool :=
  λ '(w, tr),
    let found := os_Stat env file w in
    (found, (w, tr ++ [EvStat file found])).

Definition do_LoadState {W} (env : Env W) (file : string)
  : M W (BackportPRs * PullRequests * list string * option error) :=
  λ '(w, tr),
    let '(r, w') := LoadState env file w in
    (r, (w', tr ++ [EvLoadState file r.2])).

Definition do_StoreState {W} (env : Env W) (file : string)
    (bp : BackportPRs) (prs : PullRequests) (left : list string)
  : M W (option error) :=
  λ '(w, tr),
    let '(r, w') := StoreState env file bp prs left w in
    (r, (w', tr ++ [EvStoreState file bp prs left r])).

Definition do_CompareCommits {W} (env : Env W) (owner repo base head : string)
  : M W (list string + error) :=
  λ '(w, tr),
    let '(r, w') := CompareCommits env owner repo base head w in
    (r, (w', tr ++ [EvCompareCommits owner repo base head r])).

Definition do_GeneratePatchRelease {W} (env : Env W) (owner repo : string)
    (bp : BackportPRs) (prs : PullRequests) (shas : list string)
  : M W (BackportPRs * PullRequests * list string * option error) :=
  λ '(w, tr),
    let '(r, w') := GeneratePatchRelease env owner repo bp prs shas w in
    (r, (w', tr ++ [EvGeneratePatchRelease bp prs shas r])).

(** How the walk ends: with the configuration (its [Head] moved) and the
    identifiers, with the error [GenerateReleaseNotes] returns, with a
    panic, or not within the fuel. *)
Inductive walk_result : Type :=
| WalkDone (cfg : Config) (shas : list string)
| WalkError (err : error)
| WalkPanic
| WalkOutOfFuel.

Definition err_compare (cfg : Config) (err : error) : error :=
  Errorf_w ("Unable to compare commits " +:+ cfg.(Base) +:+ " " +:+
            cfg.(Head) +:+ ": ") err LF.

(** The loop [for { ... }] of lines 116-153; [fuel] bounds the number of
    iterations. *)
Fixpoint walk {W} (env : Env W) (fuel : nat) (st : WalkState)
  : M W walk_result :=
  match fuel with
  | O => ret WalkOutOfFuel
  | S fuel' =>
      let cfg := st.(wcfg) in
      printer ("Comparing " +:+ cfg.(Base) +:+ "..." +:+ cfg.(Head) +:+ LF) ;;;
      let* r :=
        do_CompareCommits env cfg.(Owner) cfg.(Repo) cfg.(Base) cfg.(Head) in
      match r with
      | inr err => ret (WalkError (err_compare cfg err))
      | inl cc =>
          match walk_step st cc with
          | OutOfRange => ret WalkPanic
          | Break cfg' shas' => ret (WalkDone cfg' shas')
          | Continue st' => walk env fuel' st'
          end
      end
  end.

(** ** GenerateReleaseNotes *)

Definition err_read (err : error) : error :=
  Errorf_w "Unable to read persistence file: " err "".

Definition err_retrieve (err : error) : error :=
  Errorf_w "unable to retrieve PRs for commits: " err LF.

Definition msg_found_commits (shas : list string) : string :=
  "Found " +:+ fmt_d (len shas) +:+ " commits!" +:+ LF.

Definition msg_storing (cfg : Config) : string :=
  "Storing state in " +:+ cfg.(StateFile) +:+
  " before exiting due to error..." +:+ LF.

Definition msg_stored (cfg : Config) : string :=
  "State stored successful in " +:+ cfg.(StateFile) +:+
  ", please use --state-file=" +:+ cfg.(StateFile) +:+
  " in the next run to continue" +:+ LF.

Definition msg_unable_to_store (err2 : error) : string :=
  "Unable to store state: " +:+ Error err2 +:+ " + " +:+ LF.

Definition msg_found_prs (listOfPrs : PullRequests)
    (prsWithUpstream : BackportPRs) : string :=
  LF +:+ "Found " +:+ fmt_d (Z.of_nat (size listOfPrs)) +:+ " PRs and " +:+
  fmt_d (Z.of_nat (size prsWithUpstream)) +:+ " backport PRs!" +:+ LF +:+ LF.

(** Lines 156-179: classification, persistence, result. *)
Definition classify_and_store {W} (env : Env W) (cfg : Config)
    (backportPRs : BackportPRs) (listOfPRs : PullRequests)
    (shas : list string) : M W (ChangeLog + error) :=
  printer (msg_found_commits shas) ;;;
  let* (prsWithUpstream, listOfPrs, leftShas, err) :=
    do_GeneratePatchRelease env cfg.(Owner) cfg.(Repo)
                            backportPRs listOfPRs shas in
  Println "" ;;;
  (if err is Some _ then printer (msg_storing cfg) else ret tt) ;;;
  let* err2 :=
    do_StoreState env cfg.(StateFile) prsWithUpstream listOfPrs leftShas in
  match err2 with
  | None => printer (msg_stored cfg)
  | Some e2 => printer (msg_unable_to_store e2)
  end ;;;
  match err with
  | Some e => ret (inr (err_retrieve e))
  | None =>
      printer (msg_found_prs listOfPrs prsWithUpstream) ;;;
      ret (inl (mkChangeLog cfg prsWithUpstream listOfPrs))
  end.

Definition GenerateReleaseNotes {W} (env : Env W) (fuel : nat) (cfg : Config)
  : M W (outcome (ChangeLog + error)) :=
  let* found := do_Stat env cfg.(StateFile) in
  if found then
    printer ("Found state file, resuming from stored state" +:+ LF) ;;;
    let* (backportPRs, listOfPRs, shas, err) :=
      do_LoadState env cfg.(StateFile) in
    match err with
    | Some e => ret (Returns (inr (err_read e)))
    | None =>
        let* r := classify_and_store env cfg backportPRs listOfPRs shas in
        ret (Returns r)
    end
  else
    let* w := walk env fuel (walk_init cfg) in
    match w with
    | WalkError e => ret (Returns (inr e))
    | WalkPanic => ret Panics
    | WalkOutOfFuel => ret OutOfFuel
    | WalkDone cfg' shas =>
        let* r := classify_and_store env cfg' ∅ ∅ shas in
        ret (Returns r)
    end.

(** ** PrintReleaseNotes *)

(** What the Go runtime and library leave open or what is theirs alone:
    the order in which [range] visits a map, the order [sort.Slice] gives
    to elements its [less] does not separate, the case tables of
    [strings.ToLower], and what [fmt.Fprintf] makes of a format string
    that is given no operands. *)
Class GoRuntime : Type := mkGoRuntime {
  map_range : ∀ {A : Type}, gmap Z A → list (Z * A);
  map_range_perm : ∀ {A : Type} (m : gmap Z A), map_range m ≡ₚ map_to_list m;
  ToLower : string → string;
  sort_Slice : (string → string → bool) → list string → list string;
  sort_Slice_perm : ∀ less l, sort_Slice less l ≡ₚ l;
  Fprintf_format : string → string;
}.

(** [fmt.Sprintf("* %s (Backport PR #%d, Upstream PR #%d, @%s)", ...)]. *)
Definition fmt_backport (pr : PullRequest) (backportPR prID : Z) : string :=
  "* " +:+ pr.(ReleaseNote) +:+ " (Backport PR #" +:+ fmt_d backportPR +:+
  ", Upstream PR #" +:+ fmt_d prID +:+ ", @" +:+ pr.(AuthorName) +:+ ")".

(** [fmt.Sprintf("* %s (#%d, @%s)", ...)]. *)
Definition fmt_flat (pr : PullRequest) (prID : Z) : string :=
  "* " +:+ pr.(ReleaseNote) +:+ " (#" +:+ fmt_d prID +:+ ", @" +:+
  pr.(AuthorName) +:+ ")".

Definition msg_notice (lastStable : string) : string :=
  LF +:+ ESC +:+ "[1mNOTICE" +:+ ESC +:+
  "[0m: The following PRs were not included in the " +:+
  "changelog as they were backported to branch " +:+ lastStable +:+
  " and assumed to be already released." +:+ LF.

(** The variables of one pass over a category, and the output so far. *)
Record Scan : Type := mkScan {
  changelogItems : list string;
  printedReleaseNoteHeader : bool;
  output : list event;
}.

(** Lines 194-204 and 223-232: the header once, then the item. *)
Definition emit_stdout (releaseLabel item : string) (sc : Scan) : Scan :=
  let out :=
    if sc.(printedReleaseNoteHeader) then sc.(output)
    else sc.(output) ++
         [EvStdout LF; EvStdout (releaseNotes_at releaseLabel +:+ LF)] in
  mkScan (sc.(changelogItems) ++ [item]) true out.

(** Lines 256-263: the same on the error stream, the header being the
    format string of [Fprintf]. *)
Definition emit_stderr `{GoRuntime} (releaseLabel item : string) (sc : Scan)
  : Scan :=
  let out :=
    if sc.(printedReleaseNoteHeader) then sc.(output)
    else sc.(output) ++
         [EvStderr (Fprintf_format (releaseNotes_at releaseLabel))] in
  mkScan (sc.(changelogItems) ++ [item]) true out.

(** The body of [for prID, pr := range listOfPrs] at lines 190-206, on the
    inner mapping of [backportPR]. *)
Definition backport_body (releaseLabel : string) (backportPR : Z)
    (s : Scan * PullRequests) (entry : Z * PullRequest)
  : Scan * PullRequests :=
  let '(sc, listOfPrs) := s in
  let '(prID, pr) := entry in
  if decide (pr.(ReleaseLabel) ≠ releaseLabel) then s
  else (emit_stdout releaseLabel (fmt_backport pr backportPR prID) sc,
        delete prID listOfPrs).

(** The body of [for backportPR, listOfPrs := range cl.prsWithUpstream]:
    the deletions reach the mapping held under [backportPR]. *)
Definition backports_body `{GoRuntime} (releaseLabel : string)
    (s : Scan * BackportPRs) (entry : Z * PullRequests)
  : Scan * BackportPRs :=
  let '(sc, prsWithUpstream) := s in
  let '(backportPR, listOfPrs) := entry in
  let '(sc', listOfPrs') :=
    foldl (backport_body releaseLabel backportPR) (sc, listOfPrs)
          (map_range listOfPrs) in
  (sc', <[backportPR := listOfPrs']> prsWithUpstream).

(** Lines 189-207. *)
Definition scan_backports `{GoRuntime} (releaseLabel : string) (sc : Scan)
    (prsWithUpstream : BackportPRs) : Scan * BackportPRs :=
  foldl (backports_body releaseLabel) (sc, prsWithUpstream)
        (map_range prsWithUpstream).

(** Lines 213-218: [backported] after the loop over the branches. *)
Definition backported (lastStable : string) (pr : PullRequest) : bool :=
  foldl (λ b bb, if Contains bb lastStable then true else b) false
        pr.(BackportBranches).

(** The body of [for prID, pr := range cl.listOfPrs] at lines 208-234. *)
Definition flat_body (releaseLabel lastStable : string)
    (s : Scan * PullRequests) (entry : Z * PullRequest)
  : Scan * PullRequests :=
  let '(sc, listOfPrs) := s in
  let '(prID, pr) := entry in
  if decide (pr.(ReleaseLabel) ≠ releaseLabel) then s
  else if negb (is_empty lastStable) && backported lastStable pr then s
  else (emit_stdout releaseLabel (fmt_flat pr prID) sc,
        delete prID listOfPrs).

(** Lines 208-234. *)
Definition scan_flat `{GoRuntime} (releaseLabel lastStable : string)
    (sc : Scan) (listOfPrs : PullRequests) : Scan * PullRequests :=
  foldl (flat_body releaseLabel lastStable) (sc, listOfPrs)
        (map_range listOfPrs).

(** The [less] of both calls of [sort.Slice]. *)
Definition less_lower `{GoRuntime} (a b : string) : bool :=
  String.ltb (ToLower a) (ToLower b).

(** One iteration of the loop over [releaseNotesOrder] at lines 186-241. *)
Definition main_category `{GoRuntime} (s : ChangeLog * list event)
    (releaseLabel : string) : ChangeLog * list event :=
  let '(cl, out) := s in
  let sc := mkScan [] false out in
  let '(sc, prsWithUpstream') :=
    scan_backports releaseLabel sc cl.(prsWithUpstream) in
  let '(sc, listOfPrs') :=
    scan_flat releaseLabel cl.(config).(LastStable) sc cl.(listOfPrs) in
  let sorted := sort_Slice less_lower sc.(changelogItems) in
  (mkChangeLog cl.(config) prsWithUpstream' listOfPrs',
   sc.(output) ++ ((λ item, EvStdout (item +:+ LF)) <$> sorted)).

(** The body of [for prID, pr := range cl.listOfPrs] at lines 252-265. *)
Definition leftover_body `{GoRuntime} (releaseLabel : string)
    (s : Scan * PullRequests) (entry : Z * PullRequest)
  : Scan * PullRequests :=
  let '(sc, listOfPrs) := s in
  let '(prID, pr) := entry in
  if decide (pr.(ReleaseLabel) ≠ releaseLabel) then s
  else (emit_stderr releaseLabel (fmt_flat pr prID) sc,
        delete prID listOfPrs).

(** Lines 252-265. *)
Definition scan_leftover `{GoRuntime} (releaseLabel : string) (sc : Scan)
    (listOfPrs : PullRequests) : Scan * PullRequests :=
  foldl (leftover_body releaseLabel) (sc, listOfPrs) (map_range listOfPrs).

(** One iteration of the loop over [releaseNotesOrder] at lines 249-272. *)
Definition leftover_category `{GoRuntime} (s : ChangeLog * list event)
    (releaseLabel : string) : ChangeLog * list event :=
  let '(cl, out) := s in
  let sc := mkScan [] false out in
  let '(sc, listOfPrs') := scan_leftover releaseLabel sc cl.(listOfPrs) in
  let sorted := sort_Slice less_lower sc.(changelogItems) in
  (mkChangeLog cl.(config) cl.(prsWithUpstream) listOfPrs',
   sc.(output) ++ ((λ item, EvStderr (Fprintf_format item)) <$> sorted)).

(** The first loop, lines 183-241. *)
Definition main_pass `{GoRuntime} (cl : ChangeLog) : ChangeLog * list event :=
  foldl main_category
        (cl, [EvStdout ("Summary of Changes" +:+ LF);
              EvStdout ("------------------" +:+ LF)])
        releaseNotesOrder.

(** Lines 243-272, from the state the first loop leaves. *)
Definition leftover_pass `{GoRuntime} (s : ChangeLog * list event)
  : ChangeLog * list event :=
  let '(cl, out) := s in
  if decide (size cl.(listOfPrs) = 0) then (cl, out)
  else
    foldl leftover_category
          (cl, out ++ [EvStderr (msg_notice cl.(config).(LastStable))])
          releaseNotesOrder.

(** [func (cl *ChangeLog) PrintReleaseNotes()]: the change log its
    receiver points to after the call, and what was written. *)
Definition PrintReleaseNotes `{GoRuntime} (cl : ChangeLog)
  : ChangeLog * list event :=
  leftover_pass (main_pass cl).

(** ** Fixtures: a runtime and an environment to run the model on *)

Module Fixtures.

(** Lower-casing of the letters [A]-[Z]; other bytes are kept. *)
Definition lower_byte (c : ascii) : ascii :=
  let n := nat_of_ascii c in
  if (65 <=? n) && (n <=? 90) then ascii_of_nat (n + 32) else c.

Fixpoint lower (s : string) : string :=
  match s with
  | EmptyString => EmptyString
  | String c s' => String (lower_byte c) (lower s')
  end.

(** [a] may stand before [b] in a slice sorted by [less]. *)
Definition not_after (less : string → string → bool) (a b : string) : Prop :=
  less b a = false.

#[global] Instance not_after_dec less a b : Decision (not_after less a b).
Proof. unfold not_after. apply _. Defined.

(** A runtime for text in ASCII without [%]: maps are visited in the
    order of [map_to_list], the sort is a merge sort, a format string
    without verbs is written as it is. *)
Definition runtime : GoRuntime :=
  mkGoRuntime (λ A, map_to_list)
              (λ A m, reflexivity (map_to_list m))
              lower
              (λ less, merge_sort (not_after less))
              (λ less l, merge_sort_Permutation _ l)
              id.

(** A world for runs: the comparison responses still to be served and the
    content of the state file, if there is one. *)
Record World : Type := mkWorld {
  responses : list (list string + error);
  state_file : option (BackportPRs * PullRequests * list string);
}.

Definition err_exhausted : error := errorString "no response left".
Definition err_no_file : error := errorString "no such file".

(** The comparison service of a scripted client: the responses in order,
    whatever is asked. *)
Definition scripted (head : string) (w : World)
  : (list string + error) * World :=
  match w.(responses) with
  | [] => (inr err_exhausted, w)
  | r :: rs => (r, mkWorld rs w.(state_file))
  end.

(** The part of a history, base first, up to and including [head]. *)
Fixpoint upto (head : string) (hist : list string) : list string :=
  match hist with
  | [] => []
  | c :: rest => if String.eqb c head then [c] else c :: upto head rest
  end.

(** The comparison service over a linear history that serves at most
    [size] commits a page: the newest [size] commits up to the head that
    is asked for. *)
Definition window (hist : list string) (size : nat) (head : string)
  : list string :=
  let p := upto head hist in
  drop (length p - size) p.

Definition paged (hist : list string) (size : nat) (head : string)
    (w : World) : (list string + error) * World :=
  (inl (window hist size head), w).

(** An environment over [World]: [compare] serves the comparisons; the
    classifier classifies nothing and returns [classify_err]; storing
    returns [store_err] and writes the file when that is [nil]. *)
Definition env (compare : string → World → (list string + error) * World)
    (classify_err store_err : option error) : Env World :=
  mkEnv World
    (λ file w, bool_decide (is_Some w.(state_file)))
    (λ file w,
       match w.(state_file) with
       | Some (bp, prs, shas) => ((bp, prs, shas, None), w)
       | None => ((∅, ∅, [], Some err_no_file), w)
       end)
    (λ file bp prs left w,
       match store_err with
       | Some e => (Some e, w)
       | None => (None, mkWorld w.(responses) (Some (bp, prs, left)))
       end)
    (λ owner repo base head w, compare head w)
    (λ owner repo bp prs shas w, ((bp, prs, shas, classify_err), w)).

Definition cfg0 : Config :=
  mkConfig "v1" "v2" "1.0" "state.json" "cilium/cilium" "cilium" "cilium"
           "" "" false.

(** Pull requests and change logs of the scenarios. *)
Definition pr_fix : PullRequest :=
  mkPullRequest "Fix X" "release-note/bug" "alice" [].
Definition pr_fix_released : PullRequest :=
  mkPullRequest "Fix X" "release-note/bug" "alice" ["v1.0"].
Definition pr_add : PullRequest :=
  mkPullRequest "Add Y" "release-note/minor" "bob" [].
Definition pr_odd : PullRequest :=
  mkPullRequest "Tidy Z" "kind/cleanup" "carol" [].

Definition cl_released : ChangeLog :=
  mkChangeLog cfg0 {[ 20%Z := {[ 5%Z := pr_add ]} ]}
              {[ 10%Z := pr_fix_released; 12%Z := pr_fix ]}.

Definition cl_odd : ChangeLog :=
  mkChangeLog cfg0 ∅ {[ 11%Z := pr_odd ]}.

Definition cl_twice : ChangeLog :=
  mkChangeLog cfg0
              {[ 20%Z := {[ 5%Z := pr_add ]}; 21%Z := {[ 5%Z := pr_add ]} ]}
              {[ 12%Z := pr_fix ]}.

Definition scan0 : Scan := mkScan [] false [].

End Fixtures.

(** ** Vocabulary of the statements *)

(** The identifiers [append_sha] keeps. *)
Definition with_sha (l : list string) : list string :=
  filter (λ sha, sha ≠ "") l.

(** The comparison service of [env] answers over the linear history
    [hist], base first: asked for a head [h] of the history, it returns a
    page that ends at [h] and holds the commits before it without a gap,
    all of them or at least three. *)
Definition serves {W} (env : Env W) (cfg : Config) (hist : list string)
  : Prop :=
  ∀ older h newer w,
    hist = older ++ h :: newer →
    ∃ skipped page w',
      older ++ [h] = skipped ++ page ∧
      (skipped = [] ∨ 3 ≤ length page) ∧
      CompareCommits env cfg.(Owner) cfg.(Repo) cfg.(Base) h w
      = (inl page, w').

(** The event is a comparison that failed. *)
Definition is_failed_compare (ev : event) : bool :=
  match ev with
  | EvCompareCommits _ _ _ _ (inr _) => true
  | _ => false
  end.

(** The event is a call of [StoreState]. *)
Definition is_store (ev : event) : bool :=
  match ev with
  | EvStoreState _ _ _ _ _ => true
  | _ => false
  end.

(** The event is a comparison. *)
Definition is_compare (ev : event) : bool :=
  match ev with
  | EvCompareCommits _ _ _ _ _ => true
  | _ => false
  end.

(** The event is a call of the classifier. *)
Definition is_classify (ev : event) : bool :=
  match ev with
  | EvGeneratePatchRelease _ _ _ _ => true
  | _ => false
  end.

(** The events of a run up to the classification: no store, no
    classification. *)
Definition before_classify (ev : event) : Prop :=
  is_store ev = false ∧ is_classify ev = false.

(** The event is one the walk makes: a line of [printer] or a
    comparison. *)
Definition is_walk_event (ev : event) : bool :=
  match ev with
  | EvPrinter _ | EvCompareCommits _ _ _ _ _ => true
  | _ => false
  end.

(** What [classify_and_store] adds to the trace, given what the
    classifier and the store returned. *)
Definition classify_events (cfg : Config) (bp : BackportPRs)
    (prs : PullRequests) (shas : list string)
    (res : BackportPRs * PullRequests * list string * option error)
    (err2 : option error) : list event :=
  let '(bp', prs', leftShas, err) := res in
  [EvPrinter (msg_found_commits shas);
   EvGeneratePatchRelease bp prs shas res;
   EvStdout LF] ++
  (if err is Some _ then [EvPrinter (msg_storing cfg)] else []) ++
  [EvStoreState cfg.(StateFile) bp' prs' leftShas err2;
   EvPrinter (match err2 with
              | None => msg_stored cfg
              | Some e2 => msg_unable_to_store e2
              end)] ++
  (if err is Some _ then [] else [EvPrinter (msg_found_prs prs' bp')]).

(** *** Vocabulary for [PrintReleaseNotes] *)

(** The pull request carries the label [label]. *)
Definition labelled (label : string) (e : Z * PullRequest) : Prop :=
  e.2.(ReleaseLabel) = label.

#[global] Instance labelled_dec label e : Decision (labelled label e).
Proof. unfold labelled. apply _. Defined.

(** The flat scan passes the pull request over as already released: a
    last-stable string is configured and one of the branches the pull
    request was backported to contains it. *)
Definition skipped (lastStable : string) (pr : PullRequest) : bool :=
  negb (is_empty lastStable) && backported lastStable pr.

(** The entry of the flat mapping is emitted by the scan for [label]. *)
Definition flat_emits (label lastStable : string) (e : Z * PullRequest)
  : Prop :=
  labelled label e ∧ skipped lastStable e.2 = false.

#[global] Instance flat_emits_dec label lastStable e :
  Decision (flat_emits label lastStable e).
Proof. unfold flat_emits. apply _. Defined.

(** The entry of the flat mapping is matched by the scan for [label] and
    passed over. *)
Definition flat_excludes (label lastStable : string) (e : Z * PullRequest)
  : Prop :=
  labelled label e ∧ skipped lastStable e.2 = true.

#[global] Instance flat_excludes_dec label lastStable e :
  Decision (flat_excludes label lastStable e).
Proof. unfold flat_excludes. apply _. Defined.

(** The entries [(backport PR, upstream PR, pull request)] of the inner
    mappings that carry [label]. *)
Definition backport_entries (prsWithUpstream : BackportPRs) (label : string)
  : list (Z * Z * PullRequest) :=
  map_to_list prsWithUpstream ≫= λ be,
    (λ e, (be.1, e.1, e.2)) <$> filter (labelled label) (map_to_list be.2).

(** The same entries in the order in which the scan of the runtime meets
    them, from the outer entries [l]. *)
Definition range_backport_entries `{GoRuntime} (label : string)
    (l : list (Z * PullRequests)) : list (Z * Z * PullRequest) :=
  l ≫= λ be,
    (λ e, (be.1, e.1, e.2)) <$> filter (labelled label) (map_range be.2).

Definition line_backport (e : Z * Z * PullRequest) : string :=
  fmt_backport e.2 e.1.1 e.1.2.

Definition line_flat (e : Z * PullRequest) : string := fmt_flat e.2 e.1.

(** The items of the section of [label] in the main output, in no
    particular order. *)
Definition main_items (cl : ChangeLog) (label : string) : list string :=
  (line_backport <$> backport_entries cl.(prsWithUpstream) label) ++
  (line_flat <$>
     filter (flat_emits label cl.(config).(LastStable))
            (map_to_list cl.(listOfPrs))).

(** The items of the section of [label] in the diagnostic block, in no
    particular order. *)
Definition leftover_items (cl : ChangeLog) (label : string) : list string :=
  line_flat <$>
    filter (flat_excludes label cl.(config).(LastStable))
           (map_to_list cl.(listOfPrs)).

Definition stdout_header (label : string) : list event :=
  [EvStdout LF; EvStdout (releaseNotes_at label +:+ LF)].

Definition stderr_header `{GoRuntime} (label : string) : list event :=
  [EvStderr (Fprintf_format (releaseNotes_at label))].

(** What one category writes on the standard output, given its lines as
    they are printed: the header when there is a line, then the lines. *)
Definition stdout_section (label : string) (lines : list string)
  : list event :=
  (if lines is [] then [] else stdout_header label) ++
  ((λ item, EvStdout (item +:+ LF)) <$> lines).

(** The same for the diagnostic block on the error stream. *)
Definition stderr_section `{GoRuntime} (label : string) (lines : list string)
  : list event :=
  (if lines is [] then [] else stderr_header label) ++
  ((λ item, EvStderr (Fprintf_format item)) <$> lines).

(** The scan after [items] were emitted in order, the header being the
    events [header]. *)
Definition emitted (header : list event) (items : list string) (sc : Scan)
  : Scan :=
  match items with
  | [] => sc
  | _ =>
      mkScan (sc.(changelogItems) ++ items) true
             (if sc.(printedReleaseNoteHeader) then sc.(output)
              else sc.(output) ++ header)
  end.

(** The mapping after the keys of [l] were deleted. *)
Definition deleting {A} (m : gmap Z A) (l : list (Z * A)) : gmap Z A :=
  foldl (λ m e, delete e.1 m) m l.

(** The entries of a map in some order. *)
Definition lists {A} (l : list (Z * A)) (m : gmap Z A) : Prop :=
  NoDup l.*1 ∧ ∀ k v, (k, v) ∈ l ↔ m !! k = Some v.

(** What is left of a flat mapping after the scans for [labels]: the
    entries not emitted by any of them. *)
Definition flat_rest (labels : list string) (lastStable : string)
    (listOfPrs : PullRequests) : PullRequests :=
  filter (λ e, ¬ (e.2.(ReleaseLabel) ∈ labels ∧
                  skipped lastStable e.2 = false)) listOfPrs.

(** What is left of the inner mappings after the scans for [labels]. *)
Definition backport_rest (labels : list string)
    (prsWithUpstream : BackportPRs) : BackportPRs :=
  filter (λ e : Z * PullRequest, e.2.(ReleaseLabel) ∉ labels)
    <$> prsWithUpstream.

(** The identifier [sha] is a commit of a response that a comparison
    of the trace returned. *)
Definition served (tr : list event) (sha : string) : Prop :=
  ∃ owner repo base head cc,
    EvCompareCommits owner repo base head (inl cc) ∈ tr ∧ sha ∈ cc.

(** The event is a write on the error stream. *)
Definition is_stderr (ev : event) : bool :=
  match ev with
  | EvStderr _ => true
  | _ => false
  end.

(** The two lines every call of [PrintReleaseNotes] starts with. *)
Definition title_lines : list event :=
  [EvStdout ("Summary of Changes" +:+ LF);
   EvStdout ("------------------" +:+ LF)].

(** The label is none of the six categories. *)
Definition unlabelled (e : Z * PullRequest) : Prop :=
  e.2.(ReleaseLabel) ∉ releaseNotesOrder.

#[global] Instance unlabelled_dec e : Decision (unlabelled e).
Proof. unfold unlabelled. apply _. Defined.

(** Every comparison of the trace is made for the repository and the
    base of [cfg], and for the head of [cfg] or for an identifier with a
    SHA that an earlier comparison of the trace returned. *)
Definition compares_for (cfg : Config) (tr : list event) : Prop :=
  ∀ i owner repo base head res,
    tr !! i = Some (EvCompareCommits owner repo base head res) →
    owner = cfg.(Owner) ∧ repo = cfg.(Repo) ∧ base = cfg.(Base) ∧
    (head = cfg.(Head) ∨ (head ≠ "" ∧ served (take i tr) head)).

(** An environment over the world of the fixtures whose state file is
    there and cannot be read: [LoadState] returns [err]. *)
Definition env_unreadable (err : error) : Env Fixtures.World :=
  mkEnv Fixtures.World
    (λ file w, true)
    (λ file w, ((∅, ∅, [], Some err), w))
    (λ file bp prs left w, (None, w))
    (λ owner repo base head w, (inr Fixtures.err_exhausted, w))
    (λ owner repo bp prs shas w, ((bp, prs, shas, None), w)).

(** The events of the output that are no line of a pull request: the two
    title lines, the empty line and the header before a section, the
    notice, and the header of a section of the diagnostic block. *)
Definition is_frame `{GoRuntime} (lastStable : string) (ev : event) : Prop :=
  ev ∈ title_lines ∨ ev = EvStdout LF ∨
  ev = EvStderr (msg_notice lastStable) ∨
  ∃ label,
    label ∈ releaseNotesOrder ∧
    (ev = EvStdout (releaseNotes_at label +:+ LF) ∨
     ev = EvStderr (Fprintf_format (releaseNotes_at label))).

(** [sub] occurs in [s]. *)
Definition substring_of (sub s : string) : Prop :=
  ∃ pre post, s = pre +:+ sub +:+ post.

(** [a] may stand before [b] in a slice sorted by [less_lower]: the
    lower-cased [b] is not less than the lower-cased [a]. *)
Definition lower_le `{GoRuntime} (a b : string) : Prop :=
  less_lower b a = false.

(** * Properties *)

(** ** Config.Sanitize *)

Section SanitizeFacts.
Import ConfigSanitize.

Lemma Split_length (s : string) (sep : ascii) :
  length (Split s sep) = S (count_byte sep s).
Proof.
  induction s as [|c s IH]; simpl; [done|].
  destruct (Ascii.eqb c sep); simpl; [by rewrite IH|].
  destruct (Split s sep); simpl in *; lia.
Qed.

Lemma Sanitize_body_bad_repo (cfg : Config) :
  length (Split cfg.(RepoName) "/") ≠ 2 →
  Sanitize_body cfg = (Some (err_repo_name cfg), cfg).
Proof.
  intros Hlen. unfold Sanitize_body.
  destruct (Split (RepoName cfg) "/") as [|a [|b [|c l]]]; simpl in *; done.
Qed.

Lemma Sanitize_body_bad_last_stable (cfg : Config) :
  Contains cfg.(LastStable) "v" = true →
  is_Some (Sanitize_body cfg).1.
Proof.
  intros Hv. unfold Sanitize_body.
  destruct (Split (RepoName cfg) "/") as [|a [|b [|c l]]]; simpl; eauto.
  repeat (case_match; simpl; eauto).
  congruence.
Qed.

Lemma Sanitize_fst (cfg : Config) : (Sanitize cfg).1 = (Sanitize_body cfg).1.
Proof.
  unfold Sanitize, call_value_receiver. by destruct (Sanitize_body cfg).
Qed.

(** C6, as the code has it: [Sanitize] returns an error for every
    repository identifier that does not split on the slash into exactly
    two parts, which are the identifiers that do not hold exactly one
    slash, and for every last-stable string that contains the letter v.
    Nothing asks the two parts to be non-empty. *)
Theorem Sanitize_rejects (cfg : Config) :
  length (Split cfg.(RepoName) "/") ≠ 2 ∨
  Contains cfg.(LastStable) "v" = true →
  (length (Split cfg.(RepoName) "/") = 2 ↔
   count_byte "/" cfg.(RepoName) = 1) ∧
  ∃ err, (Sanitize cfg).1 = Some err.
Proof.
  intros H. split.
  - rewrite Split_length. lia.
  - rewrite Sanitize_fst. destruct H as [H|H].
    + rewrite (Sanitize_body_bad_repo cfg H). eauto.
    + by apply Sanitize_body_bad_last_stable.
Qed.

Lemma Sanitize_rejects_witness :
  (∃ err, (Sanitize
             (mkConfig "v1" "v2" "1.0" "state.json" "onlyname" "" "" "" ""
                       false)).1 = Some err) ∧
  (∃ err, (Sanitize
             (mkConfig "v1" "v2" "0.9v" "state.json" "cilium/cilium" "" ""
                       "" "" false)).1 = Some err).
Proof.
  split.
  - apply (Sanitize_rejects
             (mkConfig "v1" "v2" "1.0" "state.json" "onlyname" "" "" "" ""
                       false)).
    left. vm_compute. lia.
  - apply (Sanitize_rejects
             (mkConfig "v1" "v2" "0.9v" "state.json" "cilium/cilium" "" ""
                       "" "" false)).
    right. reflexivity.
Defined.

(** C6 as the specification words it fails: an identifier with an empty
    owner splits into two parts, one of them empty, and is accepted. *)
Lemma Sanitize_accepts_empty_owner :
  Split "/repo" "/" = [""; "repo"] ∧
  (Sanitize
     (mkConfig "v1" "v2" "1.0" "state.json" "/repo" "" "" "" "" false)).1
  = None.
Proof. split; reflexivity. Qed.

(** C9: the caller's [Config] after [Sanitize] is the one before, in every
    field, whatever [Sanitize] returns; the owner and the repository name
    are assigned in the callee's copy only. *)
Theorem Sanitize_keeps_caller_config (cfg : Config) :
  (Sanitize cfg).2 = cfg ∧
  ∀ owner repo,
    Split cfg.(RepoName) "/" = [owner; repo] →
    Owner (Sanitize_body cfg).2 = owner ∧
    Repo (Sanitize_body cfg).2 = repo ∧
    Owner (Sanitize cfg).2 = Owner cfg ∧
    Repo (Sanitize cfg).2 = Repo cfg.
Proof.
  assert (Hcaller : (Sanitize cfg).2 = cfg).
  { unfold Sanitize, call_value_receiver. by destruct (Sanitize_body cfg). }
  split; [done|].
  intros owner repo Hsplit. rewrite Hcaller.
  unfold Sanitize_body. rewrite Hsplit.
  repeat (case_match; simpl); done.
Qed.

Lemma Sanitize_keeps_caller_config_witness :
  let cfg := mkConfig "v1" "v2" "1.0" "state.json" "cilium/release" "" ""
                      "" "" false in
  (Sanitize cfg).1 = None ∧
  Owner (Sanitize_body cfg).2 = "cilium" ∧
  Repo (Sanitize_body cfg).2 = "release" ∧
  Owner (Sanitize cfg).2 = "" ∧
  Repo (Sanitize cfg).2 = "".
Proof.
  intros cfg. split; [reflexivity|].
  apply (proj2 (Sanitize_keeps_caller_config cfg) "cilium" "release").
  reflexivity.
Defined.

End SanitizeFacts.

(** ** One iteration of the walk *)

Section WalkStepFacts.

Lemma index_last {A} (l : list A) : index l (len l - 1) = last l.
Proof.
  unfold index, len. rewrite last_lookup.
  destruct l as [|x l]; simpl length.
  - by case_decide.
  - case_decide; [lia|]. f_equal. lia.
Qed.

Lemma index_0 {A} (l : list A) : index l 0 = head l.
Proof. unfold index. case_decide; [lia|]. by destruct l. Qed.

Lemma append_sha_with_sha (shas : list string) (sha : string) :
  append_sha shas sha = shas ++ with_sha [sha].
Proof.
  unfold append_sha, with_sha, is_empty.
  rewrite filter_cons, filter_nil.
  destruct (String.eqb_spec sha ""); case_decide; try done.
  by rewrite app_nil_r.
Qed.

Lemma with_sha_app (l k : list string) :
  with_sha (l ++ k) = with_sha l ++ with_sha k.
Proof. apply filter_app. Qed.

Lemma with_sha_id (l : list string) : "" ∉ l → with_sha l = l.
Proof.
  intros Hl. unfold with_sha. induction l as [|x l IH]; [done|].
  rewrite filter_cons. case_decide.
  - f_equal. apply IH. set_solver.
  - set_solver.
Qed.

(** The inner loop appends [cc[i]], ..., [cc[1]], those that have a SHA. *)
Lemma collect_spec (cc : list string) (i : nat) (shas : list string) :
  i < length cc →
  collect cc i shas = Some (shas ++ with_sha (reverse (take i (drop 1 cc)))).
Proof.
  revert shas. induction i as [|j IH]; intros shas Hlt; simpl.
  - unfold with_sha. by rewrite take_0, app_nil_r.
  - destruct (lookup_lt_is_Some_2 cc (S j) Hlt) as [sha Hsha].
    rewrite Hsha, IH by lia. f_equal.
    assert (drop 1 cc !! j = Some sha) as Hd.
    { rewrite lookup_drop. by replace (1 + j) with (S j) by lia. }
    rewrite (take_S_r _ _ _ Hd), reverse_snoc.
    rewrite append_sha_with_sha, <- app_assoc. f_equal.
    symmetry. apply (with_sha_app [sha]).
Qed.

(** The step on a response of at least two commits whose last SHA is not
    [prevHead]: what is collected, and the new head. *)
Lemma walk_step_continue (st : WalkState) (c0 l : string)
    (mid : list string) :
  prevHead st ≠ l →
  walk_step st (c0 :: mid ++ [l]) =
  let shas' :=
    shas st ++ with_sha (reverse (if cont st then mid else mid ++ [l])) in
  match last shas' with
  | None => OutOfRange
  | Some head' =>
      Continue (mkWalkState (set_Head head' (wcfg st)) true l shas')
  end.
Proof.
  intros Hne. unfold walk_step.
  rewrite index_last.
  change (c0 :: mid ++ [l]) with ((c0 :: mid) ++ [l]).
  rewrite last_snoc.
  destruct (String.eqb_spec (prevHead st) l) as [|_]; [done|].
  unfold collect_from, len. rewrite length_app. simpl length.
  destruct (cont st).
  - case_decide; [lia|].
    rewrite collect_spec by (rewrite length_app; simpl; lia).
    replace (Z.to_nat (Z.of_nat (S (length mid) + 1) - 1 - 1))
      with (length mid) by lia.
    change (drop 1 ((c0 :: mid) ++ [l])) with (mid ++ [l]).
    rewrite take_app_length.
    cbv zeta. fold (len (shas st ++ with_sha (reverse mid))).
    by rewrite index_last.
  - case_decide; [lia|].
    rewrite collect_spec by (rewrite length_app; simpl; lia).
    replace (Z.to_nat (Z.of_nat (S (length mid) + 1) - 1))
      with (length (mid ++ [l])) by (rewrite length_app; simpl; lia).
    change (drop 1 ((c0 :: mid) ++ [l])) with (mid ++ [l]).
    rewrite firstn_all.
    cbv zeta. fold (len (shas st ++ with_sha (reverse (mid ++ [l])))).
    by rewrite index_last.
Qed.

(** The step on a response whose last SHA is [prevHead]. *)
Lemma walk_step_break (st : WalkState) (cc : list string) (c0 l : string) :
  head cc = Some c0 → last cc = Some l → prevHead st = l →
  walk_step st cc = Break (wcfg st) (append_sha (shas st) c0).
Proof.
  intros Hhead Hlast Hprev. unfold walk_step.
  rewrite index_last, Hlast, index_0, Hhead.
  by destruct (String.eqb_spec (prevHead st) l).
Qed.

(** C8, as the code has it: the loop is left through [break] exactly when
    the last identifier of the newest response equals [prevHead]; that is
    the last identifier of the previous response after an iteration that
    went on, and the empty string before the first one. The iteration
    that breaks appends the first identifier of its response and nothing
    else, and appends nothing when that identifier is empty. *)
Theorem walk_break_iff (st : WalkState) (cc : list string) (cfg : Config) :
  (∀ cfg' shas',
     walk_step st cc = Break cfg' shas' ↔
     ∃ first, head cc = Some first ∧ last cc = Some (prevHead st) ∧
              cfg' = wcfg st ∧
              shas' = if decide (first = "") then shas st
                      else shas st ++ [first]) ∧
  (∀ st', walk_step st cc = Continue st' → last cc = Some (prevHead st')) ∧
  prevHead (walk_init cfg) = "".
Proof.
  split; [|split; [|done]].
  - intros cfg' shas'. split.
    + unfold walk_step. rewrite index_last, index_0.
      destruct (last cc) as [l|] eqn:Hlast; [|done].
      destruct (String.eqb_spec (prevHead st) l) as [->|Hne].
      * destruct (head cc) as [first|] eqn:Hhead; [|done].
        intros [= <- <-]. exists first. repeat split.
        unfold append_sha, is_empty.
        destruct (String.eqb_spec first ""); by case_decide.
      * repeat case_match; done.
    + intros (first & Hhead & Hlast & -> & ->).
      rewrite (walk_step_break st cc first (prevHead st)) by done.
      f_equal. unfold append_sha, is_empty.
      destruct (String.eqb_spec first ""); by case_decide.
  - intros st'. unfold walk_step. rewrite index_last.
    destruct (last cc) as [l|] eqn:Hlast; [|done].
    repeat case_match; try done; by intros [= <-].
Qed.

Lemma walk_break_iff_witness :
  walk_step (mkWalkState Fixtures.cfg0 true "c" ["c"]) ["a"; "b"; "c"]
  = Break Fixtures.cfg0 ["c"; "a"].
Proof.
  apply (proj1 (walk_break_iff (mkWalkState Fixtures.cfg0 true "c" ["c"])
                               ["a"; "b"; "c"] Fixtures.cfg0)).
  exists "a". repeat split.
Defined.

(** C8 as the specification words it fails on commits without SHA: the
    first response, which has no previous one, ends the walk when its last
    commit has none, and a final response whose first commit has none
    appends nothing. *)
Lemma walk_break_without_sha :
  walk_step (walk_init Fixtures.cfg0) ["a"; ""] = Break Fixtures.cfg0 ["a"] ∧
  walk_step (mkWalkState Fixtures.cfg0 true "c" ["c"]) [""; "b"; "c"]
  = Break Fixtures.cfg0 ["c"].
Proof. split; reflexivity. Qed.

End WalkStepFacts.

(** ** The walk over a linear history *)

Section WalkHistory.
Context {W : Type} (env : Env W).

(** One iteration of [walk], the comparison made. *)
Lemma walk_S (fuel : nat) (st : WalkState) (w : W) (tr : list event) :
  walk env (S fuel) st (w, tr) =
  let cfg := wcfg st in
  let '(r, w') :=
    CompareCommits env cfg.(Owner) cfg.(Repo) cfg.(Base) cfg.(Head) w in
  let tr' :=
    tr ++ [EvPrinter ("Comparing " +:+ cfg.(Base) +:+ "..." +:+
                      cfg.(Head) +:+ LF);
           EvCompareCommits cfg.(Owner) cfg.(Repo) cfg.(Base) cfg.(Head) r] in
  match r with
  | inr err => (WalkError (err_compare cfg err), (w', tr'))
  | inl cc =>
      match walk_step st cc with
      | OutOfRange => (WalkPanic, (w', tr'))
      | Break cfg' shas' => (WalkDone cfg' shas', (w', tr'))
      | Continue st' => walk env fuel st' (w', tr')
      end
  end.
Proof.
  simpl. unfold bind, printer, log, do_CompareCommits, ret. simpl.
  destruct (CompareCommits _ _ _ _ _ _) as [r w'].
  rewrite <- app_assoc. simpl.
  destruct r as [cc|err]; [|done].
  by destruct (walk_step st cc).
Qed.

Context (hist : list string) (cfg : Config).
Hypothesis Hnodup : NoDup hist.
Hypothesis Hsha : "" ∉ hist.
Hypothesis Hserves : serves env cfg hist.

(** The page served for the head [h] of [older ++ h :: newer], when
    something is older than [h]: its first commit, the commits between,
    and [h]; what it skips is older than all of them. *)
Lemma served_page (older newer : list string) (h : string) (w : W) :
  hist = older ++ h :: newer → older ≠ [] →
  ∃ skipped c0 mid w',
    older = skipped ++ c0 :: mid ∧
    (skipped = [] ∨ mid ≠ []) ∧
    CompareCommits env cfg.(Owner) cfg.(Repo) cfg.(Base) h w
    = (inl (c0 :: mid ++ [h]), w').
Proof using Hserves.
  intros Hhist Holder.
  destruct (Hserves older h newer w Hhist)
    as (skipped & page & w' & Hsplit & Hsize & Hcmp).
  destruct (decide (page = [])) as [->|Hpage].
  { destruct Hsize as [->|Hlen]; [|simpl in Hlen; lia].
    by destruct older. }
  destruct (last page) as [l|] eqn:Hlast;
    [|by apply last_None in Hlast].
  apply last_Some in Hlast as [page' ->].
  rewrite app_assoc in Hsplit.
  apply app_inj_tail in Hsplit as [-> <-].
  destruct page' as [|c0 mid].
  { destruct Hsize as [->|Hlen]; [done|simpl in Hlen; lia]. }
  exists skipped, c0, mid, w'. split; [done|]. split; [|done].
  destruct Hsize as [->|Hlen]; [by left|right].
  intros ->. simpl in Hlen. lia.
Qed.

(** The walk from an iteration after the first: [shas] holds the history
    from the head down to [h], the head to ask for, and [prev] is the last
    identifier of the previous response. *)
Lemma walk_from_middle (fuel : nat) :
  ∀ (older newer : list string) (h prev : string) (s : W * list event),
    hist = older ++ h :: newer →
    older ≠ [] →
    (prev = h ∧ length older = 1 ∧ 1 ≤ fuel) ∨
    (prev ∈ newer ∧ length older + 1 ≤ fuel) →
    ∃ cfg' s',
      walk env fuel
           (mkWalkState (set_Head h cfg) true prev (reverse (h :: newer))) s
      = (WalkDone cfg' (reverse hist), s').
Proof using Hnodup Hsha Hserves.
  induction fuel as [|fuel IH];
    intros older newer h prev [w tr] Hhist Holder Hcase; [lia|].
  destruct (served_page older newer h w Hhist Holder)
    as (skipped & c0 & mid & w' & Hold & Hskip & Hcmp).
  rewrite walk_S. cbv zeta. simpl wcfg.
  change (Owner (set_Head h cfg)) with (Owner cfg).
  change (Repo (set_Head h cfg)) with (Repo cfg).
  change (Base (set_Head h cfg)) with (Base cfg).
  change (Head (set_Head h cfg)) with h.
  rewrite Hcmp.
  assert (Hin : ∀ x, x ∈ hist → x ≠ "") by (intros x Hx ->; done).
  destruct Hcase as [(-> & Hone & Hfuel)|[Hprev Hfuel]].
  - (* the response after one that brought nothing new: the walk ends *)
    destruct skipped as [|? [|? ?]], mid as [|? ?];
      simplify_eq/=; try (rewrite ?length_app in Hone; simpl in Hone; lia).
    erewrite walk_step_break; [|done|done|done]. simpl.
    eexists _, _. f_equal. f_equal.
    rewrite append_sha_with_sha, with_sha_id.
    + by rewrite !reverse_cons.
    + intros ?%list_elem_of_singleton. eapply Hin; [|done]. set_solver.
  - assert (prev ≠ h) as Hne.
    { intros ->. rewrite Hhist in Hnodup.
      apply NoDup_app in Hnodup as (_ & _ & Hnd).
      by apply NoDup_cons in Hnd as [? _]. }
    rewrite walk_step_continue by done. simpl.
    rewrite with_sha_id; last first.
    { intros Hmid%elem_of_reverse. eapply Hin; [|done].
      rewrite Hhist, Hold. set_solver. }
    rewrite <- reverse_app.
    rewrite last_reverse.
    destruct mid as [|x mid'].
    + (* a page of two commits: nothing new, the head stays *)
      simpl. destruct Hskip as [->|]; [|done]. simpl in Hold.
      apply (IH older newer h h (w', _)); [done|done|].
      left. subst older. simpl in *. repeat split; lia.
    + simpl.
      assert (hist = (skipped ++ [c0]) ++ x :: (mid' ++ h :: newer)) as Hh'.
      { rewrite Hhist, Hold. by rewrite <- !app_assoc. }
      change (set_Head x (set_Head h cfg)) with (set_Head x cfg).
      apply (IH (skipped ++ [c0]) (mid' ++ h :: newer) x h (w', _));
        [done|by destruct skipped|].
      right. split; [set_solver|].
      subst older. rewrite !length_app in *. simpl in *. lia.
Qed.

(** The walk from its first iteration. *)
Lemma walk_from_head (fuel : nat) (s : W * list event) :
  2 ≤ length hist → last hist = Some cfg.(Head) → length hist ≤ fuel →
  ∃ cfg' s',
    walk env fuel (walk_init cfg) s = (WalkDone cfg' (reverse hist), s').
Proof using Hnodup Hsha Hserves.
  intros Hlen Hlast Hfuel. destruct s as [w tr].
  apply last_Some in Hlast as [older Hhist].
  set (h := Head cfg) in *.
  assert (older ≠ []) as Holder.
  { intros ->. subst hist. simpl in Hlen. lia. }
  destruct (served_page older [] h w Hhist Holder)
    as (skipped & c0 & mid & w' & Hold & Hskip & Hcmp).
  destruct fuel as [|fuel]; [lia|].
  rewrite walk_S. cbv zeta. simpl wcfg. fold h. rewrite Hcmp.
  assert (Hin : ∀ x, x ∈ hist → x ≠ "") by (intros x Hx ->; done).
  assert (h ≠ "") as Hh by (apply Hin; rewrite Hhist; set_solver).
  rewrite walk_step_continue by done. simpl.
  rewrite with_sha_id; last first.
  { intros Hmid%elem_of_reverse. eapply Hin; [|done].
    rewrite Hhist, Hold. set_solver. }
  rewrite last_reverse.
  destruct mid as [|x mid'].
  - simpl. destruct Hskip as [->|]; [|done]. simpl in Hold.
    apply (walk_from_middle fuel older [] h h (w', _)); [done|done|].
    left. subst older hist. simpl in *. repeat split; lia.
  - simpl.
    assert (hist = (skipped ++ [c0]) ++ x :: (mid' ++ [h])) as Hh'.
    { rewrite Hhist, Hold. by rewrite <- !app_assoc. }
    apply (walk_from_middle fuel (skipped ++ [c0]) (mid' ++ [h]) x h (w', _));
      [done|by destruct skipped|].
    right. split; [set_solver|].
    subst hist older. rewrite !length_app in *. simpl in *. lia.
Qed.

End WalkHistory.

(** ** Runs of GenerateReleaseNotes *)

Section RunFacts.
Context {W : Type} (env : Env W).

Lemma classify_and_store_run (cfg : Config) (bp : BackportPRs)
    (prs : PullRequests) (shas : list string) (w : W) (tr : list event) :
  classify_and_store env cfg bp prs shas (w, tr) =
  let '(res, w1) :=
    GeneratePatchRelease env cfg.(Owner) cfg.(Repo) bp prs shas w in
  let '(err2, w2) :=
    StoreState env cfg.(StateFile) res.1.1.1 res.1.1.2 res.1.2 w1 in
  (match res.2 with
   | Some e => inr (err_retrieve e)
   | None => inl (mkChangeLog cfg res.1.1.1 res.1.1.2)
   end,
   (w2, tr ++ classify_events cfg bp prs shas res err2)).
Proof.
  unfold classify_and_store, bind, printer, Println, log, ret,
    do_GeneratePatchRelease, do_StoreState. simpl.
  destruct (GeneratePatchRelease _ _ _ _ _ _ _) as [[[[bp' prs'] left] err] w1].
  simpl.
  destruct err as [e|]; simpl;
    destruct (StoreState _ _ _ _ _ _) as [[e2|] w2]; simpl;
    by rewrite <- ?app_assoc.
Qed.

Lemma GenerateReleaseNotes_run (fuel : nat) (cfg : Config) (w : W)
    (tr : list event) :
  GenerateReleaseNotes env fuel cfg (w, tr) =
  let found := os_Stat env cfg.(StateFile) w in
  let tr1 := tr ++ [EvStat cfg.(StateFile) found] in
  if found then
    let '(r, w1) := LoadState env cfg.(StateFile) w in
    let tr2 :=
      tr1 ++ [EvPrinter ("Found state file, resuming from stored state"
                         +:+ LF);
              EvLoadState cfg.(StateFile) r.2] in
    match r.2 with
    | Some e => (Returns (inr (err_read e)), (w1, tr2))
    | None =>
        let '(res, s) :=
          classify_and_store env cfg r.1.1.1 r.1.1.2 r.1.2 (w1, tr2) in
        (Returns res, s)
    end
  else
    let '(wr, s1) := walk env fuel (walk_init cfg) (w, tr1) in
    match wr with
    | WalkError e => (Returns (inr e), s1)
    | WalkPanic => (Panics, s1)
    | WalkOutOfFuel => (OutOfFuel, s1)
    | WalkDone cfg' shas =>
        let '(res, s) := classify_and_store env cfg' ∅ ∅ shas s1 in
        (Returns res, s)
    end.
Proof.
  unfold GenerateReleaseNotes, bind, do_Stat, ret. simpl.
  destruct (os_Stat env (StateFile cfg) w); simpl.
  - unfold printer, log, do_LoadState. simpl.
    destruct (LoadState _ _ _) as [[[[bp prs] shas] err] w1]. simpl.
    rewrite <- app_assoc. simpl. by destruct err.
  - destruct (walk _ _ _ _) as [wr s1]. by destruct wr.
Qed.

(** What a walk adds to the trace: lines and comparisons, of which only
    the last one can have failed, and then the walk returns its error;
    the configuration changes in its [Head] only. *)
Lemma walk_trace (fuel : nat) :
  ∀ (st : WalkState) (w : W) (tr : list event) (wr : walk_result)
    (w' : W) (tr' : list event),
    walk env fuel st (w, tr) = (wr, (w', tr')) →
    ∃ evs,
      tr' = tr ++ evs ∧
      Forall (λ ev, is_walk_event ev = true) evs ∧
      match wr with
      | WalkError err =>
          ∃ evs0 head e,
            let cfg' := set_Head head (wcfg st) in
            evs = evs0 ++ [EvCompareCommits cfg'.(Owner) cfg'.(Repo)
                                            cfg'.(Base) head (inr e)] ∧
            err = err_compare cfg' e ∧
            Forall (λ ev, is_failed_compare ev = false) evs0
      | WalkDone cfg' _ =>
          cfg' = set_Head cfg'.(Head) (wcfg st) ∧
          Forall (λ ev, is_failed_compare ev = false) evs
      | _ => Forall (λ ev, is_failed_compare ev = false) evs
      end.
Proof.
  induction fuel as [|fuel IH]; intros st w tr wr w' tr' Hwalk.
  { simpl in Hwalk. injection Hwalk as <- <- <-.
    exists []. by rewrite app_nil_r. }
  rewrite walk_S in Hwalk. cbv zeta in Hwalk.
  assert (Hself : set_Head (Head (wcfg st)) (wcfg st) = wcfg st)
    by (by destruct (wcfg st)).
  destruct (CompareCommits _ _ _ _ _ _) as [[cc|e] w1].
  - set (line := EvPrinter _) in Hwalk.
    set (call := EvCompareCommits _ _ _ _ _) in Hwalk.
    assert (Hwe : Forall (λ ev, is_walk_event ev = true) [line; call])
      by (by repeat constructor).
    assert (Hfc : Forall (λ ev, is_failed_compare ev = false) [line; call])
      by (by repeat constructor).
    destruct (walk_step st cc) as [st'|cfg' shas'|] eqn:Hstep.
    + apply IH in Hwalk as (evs & -> & Hall & Hres).
      assert (wcfg st' = set_Head (Head (wcfg st')) (wcfg st)) as Hcfg.
      { unfold walk_step in Hstep.
        repeat case_match; try done; by injection Hstep as <-. }
      exists ([line; call] ++ evs).
      split; [by rewrite <- app_assoc|].
      split; [by apply Forall_app|].
      destruct wr as [cfg' shas'|err| |].
      * destruct Hres as [Hc Hf]. split; [|by apply Forall_app].
        rewrite Hc, Hcfg. by destruct (wcfg st).
      * destruct Hres as (evs0 & head & e & -> & -> & Hf).
        exists ([line; call] ++ evs0), head, e. rewrite Hcfg.
        split; [by rewrite <- app_assoc|]. split; [done|].
        by apply Forall_app.
      * by apply Forall_app.
      * by apply Forall_app.
    + injection Hwalk as <- <- <-. exists [line; call].
      split; [done|]. split; [done|]. split; [|done].
      unfold walk_step in Hstep.
      repeat case_match; try done; injection Hstep as <- _;
        by destruct (wcfg st).
    + injection Hwalk as <- <- <-. by exists [line; call].
  - injection Hwalk as <- <- <-. eexists. split; [done|].
    split; [by repeat constructor|].
    exists [EvPrinter ("Comparing " +:+ Base (wcfg st) +:+ "..." +:+
                       Head (wcfg st) +:+ LF)], (Head (wcfg st)), e.
    cbv zeta. rewrite Hself.
    repeat split. by repeat constructor.
Qed.

End RunFacts.

Section RunTraceFacts.
Context {W : Type} (env : Env W).

Lemma walk_event_kinds (ev : event) :
  is_walk_event ev = true → is_store ev = false ∧ is_classify ev = false.
Proof. by destruct ev. Qed.

Lemma classify_events_kinds (cfg : Config) (bp : BackportPRs)
    (prs : PullRequests) (shas : list string)
    (res : BackportPRs * PullRequests * list string * option error)
    (err2 : option error) :
  Forall (λ ev, is_compare ev = false)
         (classify_events cfg bp prs shas res err2).
Proof.
  destruct res as [[[bp' prs'] leftShas] [e|]]; simpl; by repeat constructor.
Qed.

(** Every run is of one of five kinds. *)
Lemma GenerateReleaseNotes_cases (fuel : nat) (cfg : Config) (w : W)
    (res : outcome (ChangeLog + error)) (w' : W) (tr : list event) :
  GenerateReleaseNotes env fuel cfg (w, []) = (res, (w', tr)) →
  (* the state file cannot be read *)
  (∃ e, res = Returns (inr (err_read e)) ∧
        Forall (λ ev, is_compare ev = false) tr ∧
        Forall before_classify tr) ∨
  (* a comparison fails *)
  (∃ pre head e,
     let cfg' := set_Head head cfg in
     res = Returns (inr (err_compare cfg' e)) ∧
     tr = pre ++ [EvCompareCommits cfg'.(Owner) cfg'.(Repo) cfg'.(Base)
                                   head (inr e)] ∧
     Forall (λ ev, is_failed_compare ev = false) pre ∧
     Forall before_classify tr) ∨
  (* the walk does not come to an end *)
  ((res = Panics ∨ res = OutOfFuel) ∧
   Forall (λ ev, is_failed_compare ev = false) tr ∧
   Forall before_classify tr) ∨
  (* the classifier is reached *)
  (∃ pre head bp prs shas r err2,
     let cfg' := set_Head head cfg in
     res = Returns (match r.2 with
                    | Some e => inr (err_retrieve e)
                    | None => inl (mkChangeLog cfg' r.1.1.1 r.1.1.2)
                    end) ∧
     tr = pre ++ classify_events cfg' bp prs shas r err2 ∧
     Forall (λ ev, is_failed_compare ev = false) pre ∧
     Forall before_classify pre).
Proof.
  rewrite GenerateReleaseNotes_run. cbv zeta. simpl app.
  destruct (os_Stat env (StateFile cfg) w) eqn:Hstat.
  - destruct (LoadState _ _ _) as [[[[bp prs] shas] [e|]] w1]; simpl.
    + intros [= <- <- <-]. left. exists e.
      repeat split; by repeat constructor.
    + rewrite classify_and_store_run.
      destruct (GeneratePatchRelease _ _ _ _ _ _ _) as [r w2].
      destruct (StoreState _ _ _ _ _ _) as [err2 w3].
      intros [= <- <- <-]. right. right. right.
      eexists _, (Head cfg), bp, prs, shas, r, err2. cbv zeta.
      assert (set_Head (Head cfg) cfg = cfg) as -> by (by destruct cfg).
      repeat split; by repeat constructor.
  - destruct (walk _ _ _ _) as [wr [w1 tr1]] eqn:Hwalk.
    apply walk_trace in Hwalk as (evs & -> & Hall & Hres).
    assert (Forall before_classify ([EvStat (StateFile cfg) false] ++ evs))
      as Hbefore.
    { apply Forall_app. split; [by repeat constructor|].
      eapply Forall_impl; [done|]. intros ev. apply walk_event_kinds. }
    destruct wr as [cfg' shas|err| |]; simpl in Hres.
    + destruct Hres as [Hcfg Hok].
      rewrite classify_and_store_run.
      destruct (GeneratePatchRelease _ _ _ _ _ _ _) as [r w2].
      destruct (StoreState _ _ _ _ _ _) as [err2 w3].
      intros [= <- <- <-]. right. right. right.
      exists ([EvStat (StateFile cfg) false] ++ evs), (Head cfg'), ∅, ∅,
        shas, r, err2. cbv zeta.
      rewrite <- Hcfg. split; [done|]. split; [by rewrite <- app_assoc|].
      split; [|done].
      apply Forall_app. split; [by repeat constructor|done].
    + destruct Hres as (evs0 & head & e & -> & -> & Hok).
      intros [= <- <- <-]. right. left.
      exists ([EvStat (StateFile cfg) false] ++ evs0), head, e. cbv zeta.
      split; [done|]. split; [by rewrite <- app_assoc|].
      split; [|done].
      apply Forall_app. split; [by repeat constructor|done].
    + intros [= <- <- <-]. right. right. left.
      split; [by left|]. split; [|done]. by constructor.
    + intros [= <- <- <-]. right. right. left.
      split; [by right|]. split; [|done]. by constructor.
Qed.

End RunTraceFacts.

(** ** The fixtures *)

Section FixtureFacts.
Import Fixtures.

Lemma upto_app (h : string) (older newer : list string) :
  h ∉ older → upto h (older ++ h :: newer) = older ++ [h].
Proof.
  induction older as [|c older IH]; intros Hh; simpl.
  - by rewrite String.eqb_refl.
  - destruct (String.eqb_spec c h) as [->|_]; [set_solver|].
    f_equal. apply IH. set_solver.
Qed.

(** The paged service over a history without repetition serves it, when
    a page holds three commits or more. *)
Lemma paged_serves (hist : list string) (size : nat) (cfg : Config)
    (classify_err store_err : option error) :
  NoDup hist → 3 ≤ size →
  serves (env (paged hist size) classify_err store_err) cfg hist.
Proof.
  intros Hnd Hsize older h newer w ->.
  apply NoDup_app in Hnd as (_ & Hdisj & _).
  assert (h ∉ older) as Hh by (intros Hin; apply (Hdisj h Hin); set_solver).
  set (p := older ++ [h]).
  exists (take (length p - size) p), (drop (length p - size) p), w.
  split; [by rewrite take_drop|]. split.
  - destruct (decide (length p ≤ size)) as [Hle|Hgt].
    + left. by replace (length p - size) with 0 by lia.
    + right. rewrite length_drop. lia.
  - simpl. unfold paged, window. by rewrite upto_app.
Qed.

End FixtureFacts.

(** ** GenerateReleaseNotes: the walk, its failures, the classification *)

Section GenerateFacts.
Context {W : Type} (env : Env W).

Lemma collect_prefix (cc : list string) (i : nat) :
  ∀ shas shas', collect cc i shas = Some shas' → shas `prefix_of` shas'.
Proof.
  induction i as [|j IH]; intros shas shas'; simpl.
  - by intros [= ->].
  - destruct (cc !! S j) as [sha|]; [|done].
    intros Hc%IH. etrans; [|done].
    rewrite append_sha_with_sha. by apply prefix_app_r.
Qed.

Lemma walk_step_prefix (st : WalkState) (cc : list string) :
  match walk_step st cc with
  | Continue st' => shas st `prefix_of` shas st'
  | Break _ shas' => shas st `prefix_of` shas'
  | OutOfRange => True
  end.
Proof.
  unfold walk_step, collect_from.
  repeat case_match; simplify_eq/=; try done.
  all: try (rewrite append_sha_with_sha; by apply prefix_app_r).
  all: by eapply collect_prefix.
Qed.

(** The walk only appends to the identifiers it holds. *)
Lemma walk_prefix (fuel : nat) :
  ∀ st s cfg' shas' s',
    walk env fuel st s = (WalkDone cfg' shas', s') →
    shas st `prefix_of` shas'.
Proof.
  induction fuel as [|fuel IH]; intros st [w tr] cfg' shas' s'; [done|].
  rewrite walk_S. cbv zeta.
  destruct (CompareCommits _ _ _ _ _ _) as [[cc|e] w1]; [|done].
  pose proof (walk_step_prefix st cc) as Hstep.
  destruct (walk_step st cc) as [st'| |]; [|by intros [= <- <- <-]|done].
  intros Hw%IH. by etrans.
Qed.


(** C4, as the code has it: in every run in which a comparison fails, the
    failed call is the last thing the run does (no comparison is tried
    again), the error returned wraps the error of the call, and
    [StoreState] is not called at all: nothing is persisted. *)
Theorem compare_failure_aborts (fuel : nat) (cfg : Config) (w w' : W)
    (res : outcome (ChangeLog + error)) (tr : list event)
    (owner repo base head : string) (e : error) :
  GenerateReleaseNotes env fuel cfg (w, []) = (res, (w', tr)) →
  EvCompareCommits owner repo base head (inr e) ∈ tr →
  ∃ pre,
    tr = pre ++ [EvCompareCommits owner repo base head (inr e)] ∧
    Forall (λ ev, is_failed_compare ev = false) pre ∧
    res = Returns (inr (err_compare (set_Head head cfg) e)) ∧
    Unwrap (err_compare (set_Head head cfg) e) = Some e ∧
    Forall (λ ev, is_store ev = false) tr.
Proof.
  intros Hrun Hin.
  assert (Hno : ∀ l, Forall (λ ev, is_failed_compare ev = false) l →
                     EvCompareCommits owner repo base head (inr e) ∉ l).
  { intros l Hl Hel. by apply (proj1 (Forall_forall _ _) Hl) in Hel. }
  assert (Hno' : ∀ l, Forall (λ ev, is_compare ev = false) l →
                      EvCompareCommits owner repo base head (inr e) ∉ l).
  { intros l Hl Hel. by apply (proj1 (Forall_forall _ _) Hl) in Hel. }
  apply GenerateReleaseNotes_cases in Hrun
    as [(e0 & -> & Hcmp & _)
       |[(pre & head0 & e0 & Hc)
        |[(_ & Hok & _)
         |(pre & head0 & bp & prs & shas & r & err2 & Hc)]]].
  - by apply Hno' in Hcmp.
  - cbv zeta in Hc. destruct Hc as (-> & -> & Hok & Hbefore).
    apply elem_of_app in Hin as [Hin|Hin]; [by apply Hno in Hok|].
    apply list_elem_of_singleton in Hin. injection Hin as -> -> -> -> ->.
    exists pre. repeat split; try done.
    eapply Forall_impl; [done|]. by intros ev [? _].
  - by apply Hno in Hok.
  - cbv zeta in Hc. destruct Hc as (_ & -> & Hok & _).
    apply elem_of_app in Hin as [Hin|Hin]; [by apply Hno in Hok|].
    by eapply Hno' in Hin; [|apply classify_events_kinds].
Qed.

(** C5: when the classifier returns an error, the run goes on to store
    what the classifier returned (the mappings and the identifiers left),
    this being its only call of [StoreState], then reports how the store
    went, and returns the classification error wrapped, also when the
    store failed. *)
Theorem classification_error_after_store (fuel : nat) (cfg : Config)
    (w w' : W) (res : outcome (ChangeLog + error)) (tr : list event)
    (bp bp' : BackportPRs) (prs prs' : PullRequests)
    (shas leftShas : list string) (e : error) :
  GenerateReleaseNotes env fuel cfg (w, []) = (res, (w', tr)) →
  EvGeneratePatchRelease bp prs shas (bp', prs', leftShas, Some e) ∈ tr →
  ∃ pre err2,
    tr = pre ++
         [EvGeneratePatchRelease bp prs shas (bp', prs', leftShas, Some e);
          EvStdout LF;
          EvPrinter (msg_storing cfg);
          EvStoreState cfg.(StateFile) bp' prs' leftShas err2;
          EvPrinter (match err2 with
                     | None => msg_stored cfg
                     | Some e2 => msg_unable_to_store e2
                     end)] ∧
    Forall (λ ev, is_store ev = false) pre ∧
    res = Returns (inr (err_retrieve e)) ∧
    Unwrap (err_retrieve e) = Some e.
Proof.
  intros Hrun Hin.
  assert (Hno : ∀ l, Forall before_classify l →
    EvGeneratePatchRelease bp prs shas (bp', prs', leftShas, Some e) ∉ l).
  { intros l Hl Hel.
    by apply (proj1 (Forall_forall _ _) Hl) in Hel as [_ ?]. }
  apply GenerateReleaseNotes_cases in Hrun
    as [(e0 & -> & _ & Hb)
       |[(pre & head0 & e0 & Hc)
        |[(_ & _ & Hb)
         |(pre & head0 & bp0 & prs0 & shas0 & r & err2 & Hc)]]].
  - by apply Hno in Hb.
  - cbv zeta in Hc. destruct Hc as (_ & _ & _ & Hb). by apply Hno in Hb.
  - by apply Hno in Hb.
  - cbv zeta in Hc. destruct Hc as (-> & -> & _ & Hb).
    apply elem_of_app in Hin as [Hin|Hin]; [by apply Hno in Hb|].
    destruct r as [[[bp1 prs1] left1] err1].
    assert (bp0 = bp ∧ prs0 = prs ∧ shas0 = shas ∧
            (bp1, prs1, left1, err1) = (bp', prs', leftShas, Some e))
      as (-> & -> & -> & Hr).
    { simpl in Hin. destruct err1; set_solver. }
    injection Hr as -> -> -> ->.
    exists (pre ++ [EvPrinter (msg_found_commits shas)]), err2.
    split; [by rewrite <- app_assoc|]. split; [|done].
    apply Forall_app. split; [|by repeat constructor].
    eapply Forall_impl; [done|]. by intros ev [? _].
Qed.

(** C10: a response without commits, and a first response of exactly one
    commit that has a SHA, make [GenerateReleaseNotes] index out of
    range (the first at [cc.Commits[len(cc.Commits)-1]], the second at
    [shas[len(shas)-1]] on the empty [shas]) where no error is
    returned. *)
Theorem walk_out_of_range (cfg : Config) (fuel : nat) (w w' : W)
    (tr : list event) (cc : list string) :
  os_Stat env cfg.(StateFile) w = false →
  CompareCommits env cfg.(Owner) cfg.(Repo) cfg.(Base) cfg.(Head) w
  = (inl cc, w') →
  cc = [] ∨ (∃ sha, cc = [sha] ∧ sha ≠ "") →
  walk_step (walk_init cfg) cc = OutOfRange ∧
  (∀ st, walk_step st [] = OutOfRange) ∧
  (GenerateReleaseNotes env (S fuel) cfg (w, tr)).1 = Panics.
Proof.
  intros Hstat Hcmp Hcc.
  assert (walk_step (walk_init cfg) cc = OutOfRange) as Hstep.
  { destruct Hcc as [->|(sha & -> & Hsha)]; [done|].
    unfold walk_step, walk_init. simpl. by destruct sha. }
  split; [done|]. split; [done|].
  rewrite GenerateReleaseNotes_run. cbv zeta. rewrite Hstat.
  rewrite walk_S. cbv zeta. simpl wcfg. by rewrite Hcmp, Hstep.
Qed.

End GenerateFacts.

(** ** Runs on the fixtures *)

Section GenerateRuns.
Import Fixtures.

(** Evaluates the step of the walk on a concrete response. *)
Local Ltac eval_step H :=
  match type of H with
  | context [walk_step ?st ?cc] =>
      let r := eval vm_compute in (walk_step st cc) in
      change (walk_step st cc) with r in H; cbv iota beta in H
  end.

(** The example of the comment at lines 139-143, over pages of five
    commits: the walk stores 10 down to 7, asks for 7 next, and ends with
    the whole history. *)
Example walk_paged_example :
  let hist := ["2"; "3"; "4"; "5"; "6"; "7"; "8"; "9"; "10"] in
  (walk (env (paged hist 5) None None) 9 (walk_init (set_Head "10" cfg0))
        (mkWorld [] None, [])).1
  = WalkDone (set_Head "3" cfg0) (reverse hist) ∧
  walk_step (walk_init (set_Head "10" cfg0)) ["6"; "7"; "8"; "9"; "10"]
  = Continue (mkWalkState (set_Head "7" cfg0) true "10"
                          ["10"; "9"; "8"; "7"]).
Proof. split; reflexivity. Qed.



Lemma compare_failure_aborts_witness :
  let script := [inl ["c"; "d"; "e"]; inr (errorString "boom")] in
  let run :=
    GenerateReleaseNotes (env scripted None None) 5 (set_Head "e" cfg0)
                         (mkWorld script None, []) in
  ∃ pre,
    run.2.2 = pre ++ [EvCompareCommits "cilium" "cilium" "v1" "d"
                                       (inr (errorString "boom"))] ∧
    Forall (λ ev, is_failed_compare ev = false) pre ∧
    run.1 = Returns (inr (err_compare (set_Head "d" (set_Head "e" cfg0))
                                      (errorString "boom"))) ∧
    Unwrap (err_compare (set_Head "d" (set_Head "e" cfg0))
                        (errorString "boom"))
    = Some (errorString "boom") ∧
    Forall (λ ev, is_store ev = false) run.2.2.
Proof.
  intros script run.
  apply (compare_failure_aborts (env scripted None None) 5
           (set_Head "e" cfg0) (mkWorld script None) run.2.1 run.1 run.2.2).
  - reflexivity.
  - vm_compute. repeat constructor.
Defined.

(** C4 as the specification words it fails: the first comparison brings
    [e d] into the list, the second fails; the run returns the error,
    has not called [StoreState], and there is no state file after it. *)
Lemma compare_failure_stores_nothing :
  let script := [inl ["c"; "d"; "e"]; inr (errorString "boom")] in
  let run :=
    GenerateReleaseNotes (env scripted None None) 5 (set_Head "e" cfg0)
                         (mkWorld script None, []) in
  walk_step (walk_init (set_Head "e" cfg0)) ["c"; "d"; "e"]
  = Continue (mkWalkState (set_Head "d" cfg0) true "e" ["e"; "d"]) ∧
  (∃ err, run.1 = Returns (inr err)) ∧
  filter (λ ev, is_store ev = true) run.2.2 = [] ∧
  state_file run.2.1 = None.
Proof.
  intros script run. split; [reflexivity|]. split; [by eexists|].
  split; reflexivity.
Qed.

Lemma classification_error_after_store_witness :
  let rate := errorString "rate limit" in
  let disk := errorString "disk full" in
  let run :=
    GenerateReleaseNotes (env (paged ["c1"; "c2"; "c3"] 3)
                              (Some rate) (Some disk))
                         5 (set_Head "c3" cfg0) (mkWorld [] None, []) in
  ∃ pre err2,
    run.2.2 = pre ++
      [EvGeneratePatchRelease ∅ ∅ ["c3"; "c2"; "c1"]
                              (∅, ∅, ["c3"; "c2"; "c1"], Some rate);
       EvStdout LF;
       EvPrinter (msg_storing (set_Head "c3" cfg0));
       EvStoreState "state.json" ∅ ∅ ["c3"; "c2"; "c1"] err2;
       EvPrinter (match err2 with
                  | None => msg_stored (set_Head "c3" cfg0)
                  | Some e2 => msg_unable_to_store e2
                  end)] ∧
    Forall (λ ev, is_store ev = false) pre ∧
    run.1 = Returns (inr (err_retrieve rate)) ∧
    Unwrap (err_retrieve rate) = Some rate.
Proof.
  intros rate disk run.
  apply (classification_error_after_store
           (env (paged ["c1"; "c2"; "c3"] 3) (Some rate) (Some disk)) 5
           (set_Head "c3" cfg0) (mkWorld [] None) run.2.1 run.1 run.2.2).
  - reflexivity.
  - vm_compute. repeat constructor.
Defined.

Lemma walk_out_of_range_witness :
  walk_step (walk_init cfg0) ["a"] = OutOfRange ∧
  (∀ st, walk_step st [] = OutOfRange) ∧
  (GenerateReleaseNotes (env scripted None None) 1 cfg0
     (mkWorld [inl ["a"]] None, [])).1 = Panics.
Proof.
  apply (walk_out_of_range (env scripted None None) cfg0 0
           (mkWorld [inl ["a"]] None) (mkWorld [] None) [] ["a"]).
  - reflexivity.
  - reflexivity.
  - right. exists "a". split; [reflexivity|discriminate].
Defined.

End GenerateRuns.

(** ** Scans that delete what they emit *)

Section ScanFacts.
Context `{rt : GoRuntime}.

Lemma emitted_cons (header : list event) (item : string)
    (items : list string) (sc : Scan) :
  emitted header (item :: items) sc =
  emitted header items
    (mkScan (sc.(changelogItems) ++ [item]) true
            (if sc.(printedReleaseNoteHeader) then sc.(output)
             else sc.(output) ++ header)).
Proof.
  destruct items as [|item' items]; simpl; [done|].
  by rewrite <- app_assoc.
Qed.

Lemma emitted_app (header : list event) (l k : list string) (sc : Scan) :
  emitted header k (emitted header l sc) = emitted header (l ++ k) sc.
Proof.
  revert sc. induction l as [|item l IH]; intros sc; [done|].
  simpl app. by rewrite !emitted_cons, IH.
Qed.

(** The scan from the fresh variables of a category. *)
Lemma emitted_fresh (header : list event) (items : list string)
    (out : list event) :
  emitted header items (mkScan [] false out) =
  mkScan items (bool_decide (items ≠ []))
         (out ++ if items is [] then [] else header).
Proof.
  destruct items as [|item items]; simpl.
  - by rewrite app_nil_r.
  - done.
Qed.

(** A loop over entries that emits and deletes those that satisfy [P]
    and passes over the others. *)
Lemma scan_fold (header : list event) (P : Z * PullRequest → Prop)
    `{!∀ e, Decision (P e)} (line : Z * PullRequest → string)
    (body : Scan * PullRequests → Z * PullRequest → Scan * PullRequests) :
  (∀ sc m e,
     body (sc, m) e =
     if decide (P e) then (emitted header [line e] sc, delete e.1 m)
     else (sc, m)) →
  ∀ l sc m,
    foldl body (sc, m) l =
    (emitted header (line <$> filter P l) sc, deleting m (filter P l)).
Proof.
  intros Hbody. induction l as [|e l IH]; intros sc m; [done|].
  simpl foldl. rewrite Hbody, filter_cons.
  destruct (decide (P e)); [|apply IH].
  rewrite IH, fmap_cons. f_equal.
  apply (emitted_app header [line e]).
Qed.

Lemma deleting_lookup {A} (l : list (Z * A)) (m : gmap Z A) (k : Z) :
  deleting m l !! k = if decide (k ∈ l.*1) then None else m !! k.
Proof.
  revert m. induction l as [|[k' v] l IH]; intros m.
  - destruct (decide (k ∈ ([] : list (Z * A)).*1)) as [Hin|_]; [|done].
    by apply elem_of_nil in Hin.
  - unfold deleting in *. simpl foldl. rewrite IH.
    rewrite fmap_cons. simpl fst.
    destruct (decide (k ∈ l.*1)) as [Hin|Hin];
      destruct (decide (k ∈ k' :: l.*1)) as [Hin'|Hin']; try done.
    + destruct Hin'. by right.
    + apply elem_of_cons in Hin' as [->|?]; [|done].
      apply lookup_delete_eq.
    + rewrite lookup_delete_ne; [done|].
      intros ->. apply Hin'. by left.
Qed.

Lemma lists_perm {A} (l : list (Z * A)) (m : gmap Z A) :
  l ≡ₚ map_to_list m → lists l m.
Proof.
  intros Hp. split.
  - rewrite Hp. apply NoDup_fst_map_to_list.
  - intros k v. rewrite Hp. apply elem_of_map_to_list.
Qed.

Lemma lists_range {A} (m : gmap Z A) : lists (map_range m) m.
Proof. apply lists_perm, map_range_perm. Qed.

(** Deleting the entries of a map that satisfy [P] leaves those that do
    not. *)
Lemma deleting_filter {A} (P : Z * A → Prop) `{!∀ e, Decision (P e)}
    (l : list (Z * A)) (m : gmap Z A) :
  lists l m → deleting m (filter P l) = filter (λ e, ¬ P e) m.
Proof.
  intros Hl. apply map_eq. intros k.
  rewrite deleting_lookup.
  destruct (m !! k) as [v|] eqn:Hk.
  - destruct (decide (P (k, v))) as [HP|HP].
    + rewrite decide_True.
      * symmetry. apply map_lookup_filter_None. right. intros v' Hv'.
        simplify_eq. by intros HnP.
      * apply list_elem_of_fmap. exists (k, v). split; [done|].
        apply list_elem_of_filter. split; [done|]. by apply Hl.
    + rewrite decide_False.
      * symmetry. by apply map_lookup_filter_Some.
      * intros ([k' v'] & -> & [HP' Hin]%list_elem_of_filter)
                 %list_elem_of_fmap.
        simpl in *. apply Hl in Hin. by simplify_eq.
  - case_decide; symmetry; apply map_lookup_filter_None; by left.
Qed.

End ScanFacts.

(** ** The scans of one category *)

Section CategoryFacts.
Context `{rt : GoRuntime}.

Lemma scan_flat_spec (label lastStable : string) (sc : Scan)
    (flat : PullRequests) :
  scan_flat label lastStable sc flat =
  (emitted (stdout_header label)
           (line_flat <$> filter (flat_emits label lastStable)
                                 (map_range flat)) sc,
   filter (λ e, ¬ flat_emits label lastStable e) flat).
Proof.
  unfold scan_flat.
  rewrite (scan_fold (stdout_header label) (flat_emits label lastStable)
                     line_flat).
  - by rewrite deleting_filter by apply lists_range.
  - intros sc' m [prID pr]. unfold flat_body. simpl.
    destruct (decide (flat_emits label lastStable (prID, pr)))
      as [[Hl Hs]|Hn].
    + unfold labelled, skipped in *. simpl in *.
      rewrite decide_False by (by intros ?). by rewrite Hs.
    + destruct (decide (ReleaseLabel pr ≠ label)) as [Hne|Heq]; [done|].
      destruct (negb (is_empty lastStable) && backported lastStable pr)
        eqn:Hskip; [done|].
      destruct Hn. split; [by apply dec_stable in Heq|done].
Qed.

Lemma scan_leftover_spec (label : string) (sc : Scan) (flat : PullRequests) :
  scan_leftover label sc flat =
  (emitted (stderr_header label)
           (line_flat <$> filter (labelled label) (map_range flat)) sc,
   filter (λ e, ¬ labelled label e) flat).
Proof.
  unfold scan_leftover.
  rewrite (scan_fold (stderr_header label) (labelled label) line_flat).
  - by rewrite deleting_filter by apply lists_range.
  - intros sc' m [prID pr]. unfold leftover_body, labelled. simpl.
    destruct (decide (ReleaseLabel pr ≠ label)) as [Hne|Heq].
    + by rewrite decide_False.
    + apply dec_stable in Heq. by rewrite decide_True.
Qed.

Lemma scan_inner_spec (label : string) (backportPR : Z) (sc : Scan)
    (inner : PullRequests) :
  foldl (backport_body label backportPR) (sc, inner) (map_range inner) =
  (emitted (stdout_header label)
           (line_backport <$>
              ((λ e, (backportPR, e.1, e.2)) <$>
                 filter (labelled label) (map_range inner))) sc,
   filter (λ e, ¬ labelled label e) inner).
Proof.
  rewrite (scan_fold (stdout_header label) (labelled label)
                     (λ e, fmt_backport e.2 backportPR e.1)).
  - rewrite deleting_filter by apply lists_range.
    by rewrite <- list_fmap_compose.
  - intros sc' m [prID pr]. unfold backport_body, labelled. simpl.
    destruct (decide (ReleaseLabel pr ≠ label)) as [Hne|Heq].
    + by rewrite decide_False.
    + apply dec_stable in Heq. by rewrite decide_True.
Qed.

Lemma backports_fold (label : string) (l : list (Z * PullRequests)) :
  ∀ sc outer,
    foldl (backports_body label) (sc, outer) l =
    (emitted (stdout_header label)
             (line_backport <$> range_backport_entries label l) sc,
     foldl (λ o be, <[be.1 := filter (λ e, ¬ labelled label e) be.2]> o)
           outer l).
Proof.
  induction l as [|[bp inner] l IH]; intros sc outer; [done|].
  simpl foldl. unfold backports_body at 1.
  rewrite scan_inner_spec, IH. f_equal.
  unfold range_backport_entries. rewrite bind_cons, fmap_app.
  by rewrite emitted_app.
Qed.

Lemma foldl_insert_lookup {A} (f : A → A) (l : list (Z * A)) :
  NoDup l.*1 →
  ∀ (o : gmap Z A) (k : Z),
    (∀ v, (k, v) ∈ l →
          foldl (λ o be, <[be.1 := f be.2]> o) o l !! k = Some (f v)) ∧
    (k ∉ l.*1 → foldl (λ o be, <[be.1 := f be.2]> o) o l !! k = o !! k).
Proof.
  induction l as [|[k' v'] l IH]; intros Hnd o k.
  { split; [by intros v ?%elem_of_nil|done]. }
  rewrite fmap_cons in Hnd. apply NoDup_cons in Hnd as [Hk' Hnd].
  specialize (IH Hnd). simpl foldl. split.
  - intros v [[= -> ->]|Hin]%elem_of_cons.
    + rewrite (proj2 (IH _ _) Hk'). apply lookup_insert_eq.
    + by apply IH.
  - rewrite fmap_cons. intros Hk.
    rewrite (proj2 (IH _ _)).
    + apply lookup_insert_ne. intros ->. apply Hk. by left.
    + intros ?. apply Hk. by right.
Qed.

Lemma foldl_insert_all {A} (f : A → A) (l : list (Z * A)) (m : gmap Z A) :
  lists l m → foldl (λ o be, <[be.1 := f be.2]> o) m l = f <$> m.
Proof.
  intros [Hnd Hl]. apply map_eq. intros k. rewrite lookup_fmap.
  destruct (m !! k) as [v|] eqn:Hk; simpl.
  - apply (foldl_insert_lookup f l Hnd). by apply Hl.
  - rewrite (proj2 (foldl_insert_lookup f l Hnd m k)); [done|].
    intros ([k' v] & -> & Hin%Hl)%list_elem_of_fmap. simpl in *. congruence.
Qed.

Lemma scan_backports_spec (label : string) (sc : Scan) (outer : BackportPRs) :
  scan_backports label sc outer =
  (emitted (stdout_header label)
           (line_backport <$> range_backport_entries label (map_range outer))
           sc,
   filter (λ e, ¬ labelled label e) <$> outer).
Proof.
  unfold scan_backports. rewrite backports_fold.
  by rewrite foldl_insert_all by apply lists_range.
Qed.

Lemma bind_perm_ext {A B} (f g : A → list B) (l : list A) :
  (∀ x, f x ≡ₚ g x) → l ≫= f ≡ₚ l ≫= g.
Proof.
  intros Hfg. induction l as [|x l IH]; [done|].
  by rewrite !bind_cons, IH, Hfg.
Qed.

Lemma range_backport_entries_perm (label : string) (outer : BackportPRs) :
  range_backport_entries label (map_range outer)
  ≡ₚ backport_entries outer label.
Proof.
  unfold range_backport_entries, backport_entries.
  rewrite map_range_perm. apply bind_perm_ext. intros [bp inner]. simpl.
  by rewrite map_range_perm.
Qed.

(** One category of the first loop: its lines are the items of the
    category in some order; the entries it emitted are gone. *)
Lemma main_category_spec (cl : ChangeLog) (out : list event)
    (label : string) :
  ∃ lines,
    lines ≡ₚ main_items cl label ∧
    main_category (cl, out) label =
    (mkChangeLog cl.(config)
       (filter (λ e, ¬ labelled label e) <$> cl.(prsWithUpstream))
       (filter (λ e, ¬ flat_emits label cl.(config).(LastStable) e)
               cl.(listOfPrs)),
     out ++ stdout_section label lines).
Proof.
  unfold main_category.
  rewrite scan_backports_spec, scan_flat_spec, emitted_app, emitted_fresh.
  simpl.
  set (items := (line_backport <$> range_backport_entries _ _) ++
                (line_flat <$> _)).
  exists (sort_Slice less_lower items).
  assert (sort_Slice less_lower items ≡ₚ items) as Hsort
    by apply sort_Slice_perm.
  split.
  - rewrite Hsort. unfold items, main_items.
    by rewrite range_backport_entries_perm, map_range_perm.
  - f_equal. rewrite <- app_assoc. f_equal. unfold stdout_section.
    f_equal. destruct items as [|item items].
    + by apply Permutation_nil_r in Hsort as ->.
    + destruct (sort_Slice less_lower (item :: items)); [|done].
      symmetry in Hsort. by apply Permutation_nil_r in Hsort.
Qed.

(** One category of the diagnostic block. *)
Lemma leftover_category_spec (cl : ChangeLog) (out : list event)
    (label : string) :
  ∃ lines,
    lines ≡ₚ line_flat <$> filter (labelled label)
                                  (map_to_list cl.(listOfPrs)) ∧
    leftover_category (cl, out) label =
    (mkChangeLog cl.(config) cl.(prsWithUpstream)
       (filter (λ e, ¬ labelled label e) cl.(listOfPrs)),
     out ++ stderr_section label lines).
Proof.
  unfold leftover_category.
  rewrite scan_leftover_spec, emitted_fresh. simpl.
  set (items := line_flat <$> filter _ (map_range _)).
  exists (sort_Slice less_lower items).
  assert (sort_Slice less_lower items ≡ₚ items) as Hsort
    by apply sort_Slice_perm.
  split.
  - rewrite Hsort. unfold items. by rewrite map_range_perm.
  - f_equal. rewrite <- app_assoc. f_equal. unfold stderr_section.
    f_equal. destruct items as [|item items].
    + by apply Permutation_nil_r in Hsort as ->.
    + destruct (sort_Slice less_lower (item :: items)); [|done].
      symmetry in Hsort. by apply Permutation_nil_r in Hsort.
Qed.

End CategoryFacts.

(** ** The two passes of PrintReleaseNotes *)

Section PassFacts.
Context `{rt : GoRuntime}.

Lemma Forall2_impl_in {A B} (R R' : A → B → Prop) (l : list A)
    (k : list B) :
  Forall2 R l k → (∀ x y, x ∈ l → R x y → R' x y) → Forall2 R' l k.
Proof.
  induction 1 as [|x y l k Hxy Hlk IH]; intros Himpl; constructor.
  - apply Himpl; [by left|done].
  - apply IH. intros x' y' Hin. apply Himpl. by right.
Qed.

Lemma NoDup_releaseNotesOrder : NoDup releaseNotesOrder.
Proof. apply (bool_decide_unpack _). by vm_compute. Qed.

(** The entries of a filtered map that satisfy [P] are the entries of the
    map that satisfy [R], when [R] is [P] and the filter together. *)
Lemma filter_map_to_list_filter {A} (P Q R : Z * A → Prop)
    `{!∀ e, Decision (P e), !∀ e, Decision (Q e), !∀ e, Decision (R e)}
    (m : gmap Z A) :
  (∀ e, P e ∧ Q e ↔ R e) →
  filter P (map_to_list (filter Q m)) ≡ₚ filter R (map_to_list m).
Proof.
  intros HPQ. apply NoDup_Permutation.
  - apply NoDup_filter, NoDup_map_to_list.
  - apply NoDup_filter, NoDup_map_to_list.
  - intros [k v].
    rewrite !list_elem_of_filter, !elem_of_map_to_list,
      map_lookup_filter_Some.
    specialize (HPQ (k, v)). tauto.
Qed.

Lemma backport_entries_filter (label : string) (Q : Z * PullRequest → Prop)
    `{!∀ e, Decision (Q e)} (outer : BackportPRs) :
  (∀ e, labelled label e → Q e) →
  backport_entries (filter Q <$> outer) label
  ≡ₚ backport_entries outer label.
Proof.
  intros HQ. unfold backport_entries.
  rewrite map_to_list_fmap, list_fmap_bind.
  apply bind_perm_ext. intros [bp inner]. simpl.
  rewrite (filter_map_to_list_filter (labelled label) Q (labelled label));
    [done|].
  intros e. split; [tauto|]. intros He. split; [done|by apply HQ].
Qed.

(** The items of a later category are not touched by the scans of
    another one. *)
Lemma main_items_after (cl : ChangeLog) (label label' : string) :
  label' ≠ label →
  main_items
    (mkChangeLog cl.(config)
       (filter (λ e, ¬ labelled label e) <$> cl.(prsWithUpstream))
       (filter (λ e, ¬ flat_emits label cl.(config).(LastStable) e)
               cl.(listOfPrs)))
    label'
  ≡ₚ main_items cl label'.
Proof.
  intros Hne. unfold main_items. simpl.
  rewrite backport_entries_filter; last first.
  { unfold labelled. intros e -> ?. done. }
  rewrite (filter_map_to_list_filter _ _
             (flat_emits label' (LastStable (config cl)))); [done|].
  intros e. unfold flat_emits, labelled. split; [tauto|].
  intros [Hl Hs]. split; [done|]. intros [Hl' _]. congruence.
Qed.

Lemma backport_rest_nil (outer : BackportPRs) : backport_rest [] outer = outer.
Proof.
  unfold backport_rest. apply map_eq. intros bp. rewrite lookup_fmap.
  destruct (outer !! bp) as [inner|]; [|done]. simpl. f_equal.
  apply map_filter_id. intros id pr _. by intros ?%elem_of_nil.
Qed.

Lemma backport_rest_cons (label : string) (labels : list string)
    (outer : BackportPRs) :
  backport_rest labels (filter (λ e, ¬ labelled label e) <$> outer)
  = backport_rest (label :: labels) outer.
Proof.
  unfold backport_rest. apply map_eq. intros bp. rewrite !lookup_fmap.
  destruct (outer !! bp) as [inner|]; [|done]. simpl. f_equal.
  apply map_filter_strong_ext. intros id pr.
  rewrite map_lookup_filter_Some. unfold labelled. simpl.
  rewrite not_elem_of_cons. naive_solver.
Qed.

Lemma flat_rest_nil (lastStable : string) (flat : PullRequests) :
  flat_rest [] lastStable flat = flat.
Proof.
  unfold flat_rest. apply map_filter_id. intros id pr _ [Hin _].
  by apply elem_of_nil in Hin.
Qed.

Lemma flat_rest_cons (label : string) (labels : list string)
    (lastStable : string) (flat : PullRequests) :
  flat_rest labels lastStable
            (filter (λ e, ¬ flat_emits label lastStable e) flat)
  = flat_rest (label :: labels) lastStable flat.
Proof.
  unfold flat_rest. apply map_filter_strong_ext. intros id pr.
  rewrite map_lookup_filter_Some. unfold flat_emits, labelled. simpl.
  rewrite elem_of_cons. naive_solver.
Qed.

(** The first loop over any categories without repetition. *)
Lemma main_fold (labels : list string) :
  NoDup labels →
  ∀ (cl : ChangeLog) (out : list event),
    ∃ liness,
      Forall2 (λ label lines, lines ≡ₚ main_items cl label) labels liness ∧
      foldl main_category (cl, out) labels =
      (mkChangeLog cl.(config)
         (backport_rest labels cl.(prsWithUpstream))
         (flat_rest labels cl.(config).(LastStable) cl.(listOfPrs)),
       out ++ concat (zip_with stdout_section labels liness)).
Proof.
  induction labels as [|label labels IH]; intros Hnd cl out.
  - exists []. split; [constructor|]. simpl.
    rewrite backport_rest_nil, flat_rest_nil, app_nil_r. by destruct cl.
  - apply NoDup_cons in Hnd as [Hnotin Hnd].
    destruct (main_category_spec cl out label) as (lines & Hlines & Heq).
    cbn [foldl]. rewrite Heq.
    match goal with
    | |- context [foldl main_category (?c, ?o) labels] =>
        destruct (IH Hnd c o) as (liness & Hall & Heq')
    end.
    exists (lines :: liness). split.
    + constructor; [done|].
      eapply Forall2_impl_in; [done|]. intros label' lines' Hin Hp. simpl in Hp.
      rewrite Hp. apply main_items_after. by intros ->.
    + rewrite Heq'. simpl.
      by rewrite backport_rest_cons, flat_rest_cons, <- app_assoc.
Qed.

(** The loop of the diagnostic block over any categories without
    repetition. *)
Lemma leftover_fold (labels : list string) :
  NoDup labels →
  ∀ (cl : ChangeLog) (out : list event),
    ∃ liness,
      Forall2 (λ label lines,
                 lines ≡ₚ line_flat <$> filter (labelled label)
                                               (map_to_list cl.(listOfPrs)))
              labels liness ∧
      foldl leftover_category (cl, out) labels =
      (mkChangeLog cl.(config) cl.(prsWithUpstream)
         (filter (λ e : Z * PullRequest, e.2.(ReleaseLabel) ∉ labels)
                 cl.(listOfPrs)),
       out ++ concat (zip_with stderr_section labels liness)).
Proof.
  induction labels as [|label labels IH]; intros Hnd cl out.
  - exists []. split; [constructor|]. simpl. rewrite app_nil_r.
    rewrite map_filter_id; [by destruct cl|].
    intros id pr _. by intros ?%elem_of_nil.
  - apply NoDup_cons in Hnd as [Hnotin Hnd].
    destruct (leftover_category_spec cl out label) as (lines & Hlines & Heq).
    cbn [foldl]. rewrite Heq.
    match goal with
    | |- context [foldl leftover_category (?c, ?o) labels] =>
        destruct (IH Hnd c o) as (liness & Hall & Heq')
    end.
    exists (lines :: liness). split.
    + constructor; [done|].
      eapply Forall2_impl_in; [done|]. intros label' lines' Hin Hp. simpl in Hp.
      rewrite Hp. apply fmap_Permutation.
      apply (filter_map_to_list_filter _ _ (labelled label')).
      intros e. unfold labelled. split; [tauto|].
      intros He. split; [done|]. intros He'. apply Hnotin. congruence.
    + rewrite Heq'. simpl. rewrite <- app_assoc. f_equal. f_equal.
      apply map_filter_strong_ext. intros id pr.
      rewrite map_lookup_filter_Some. unfold labelled. simpl.
      rewrite not_elem_of_cons. naive_solver.
Qed.

(** The first loop of [PrintReleaseNotes]. *)
Lemma main_pass_spec (cl : ChangeLog) :
  ∃ liness,
    Forall2 (λ label lines, lines ≡ₚ main_items cl label)
            releaseNotesOrder liness ∧
    main_pass cl =
    (mkChangeLog cl.(config)
       (backport_rest releaseNotesOrder cl.(prsWithUpstream))
       (flat_rest releaseNotesOrder cl.(config).(LastStable) cl.(listOfPrs)),
     [EvStdout ("Summary of Changes" +:+ LF);
      EvStdout ("------------------" +:+ LF)] ++
     concat (zip_with stdout_section releaseNotesOrder liness)).
Proof. apply main_fold, NoDup_releaseNotesOrder. Qed.

(** The diagnostic block of [PrintReleaseNotes]: nothing when the first
    loop left no entry, else the notice and, category by category, the
    entries the first loop passed over. *)
Lemma leftover_pass_spec (cl : ChangeLog) :
  let lastStable := cl.(config).(LastStable) in
  let rest := flat_rest releaseNotesOrder lastStable cl.(listOfPrs) in
  ∃ liness,
    Forall2 (λ label lines, lines ≡ₚ leftover_items cl label)
            releaseNotesOrder liness ∧
    (PrintReleaseNotes cl).2 =
    (main_pass cl).2 ++
    (if decide (rest = ∅) then []
     else EvStderr (msg_notice lastStable) ::
          concat (zip_with stderr_section releaseNotesOrder liness)).
Proof.
  intros lastStable rest.
  destruct (main_pass_spec cl) as (liness0 & _ & Hmain).
  unfold PrintReleaseNotes. rewrite Hmain. unfold leftover_pass.
  simpl listOfPrs. fold lastStable. fold rest.
  destruct (decide (size rest = 0)) as [Hsize|Hsize].
  - apply map_size_empty_iff in Hsize.
    destruct (decide (rest = ∅)) as [_|Hrest]; [|done].
    exists ((λ label, sort_Slice less_lower (leftover_items cl label))
              <$> releaseNotesOrder).
    split; [|by rewrite app_nil_r].
    apply Forall2_fmap_r, Forall_Forall2_diag, Forall_forall.
    intros label _. apply sort_Slice_perm.
  - destruct (decide (rest = ∅)) as [Hrest|_];
      [by apply map_size_empty_iff in Hrest|].
    match goal with
    | |- context [foldl leftover_category (?c, ?o) releaseNotesOrder] =>
        destruct (leftover_fold releaseNotesOrder NoDup_releaseNotesOrder
                    c o) as (liness & Hall & Heq)
    end.
    exists liness. split.
    + eapply Forall2_impl_in; [done|]. intros label lines Hin Hp.
      simpl in Hp. rewrite Hp. unfold leftover_items.
      apply fmap_Permutation.
      apply (filter_map_to_list_filter _ _ (flat_excludes label lastStable)).
      intros e. unfold flat_excludes, labelled. split.
      * intros [Hl Hrest]. split; [done|].
        destruct (skipped lastStable e.2) eqn:Hs; [done|].
        destruct Hrest. split; [by rewrite Hl|done].
      * intros [Hl Hs]. split; [done|]. intros [_ Hs']. congruence.
    + rewrite Heq. simpl. by rewrite <- app_assoc.
Qed.

End PassFacts.

(** ** PrintReleaseNotes: what is emitted, what is removed, what is left *)

Section PrintFacts.
Context `{rt : GoRuntime}.

Lemma emitted_items (header : list event) (items : list string) (sc : Scan) :
  changelogItems (emitted header items sc) = changelogItems sc ++ items.
Proof. destruct items; simpl; [by rewrite app_nil_r|done]. Qed.

Lemma flat_rest_lookup (labels : list string) (lastStable : string)
    (flat : PullRequests) (prID : Z) (pr : PullRequest) :
  flat_rest labels lastStable flat !! prID = Some pr ↔
  flat !! prID = Some pr ∧
  (skipped lastStable pr = true ∨ pr.(ReleaseLabel) ∉ labels).
Proof.
  unfold flat_rest. rewrite map_lookup_filter_Some. simpl.
  destruct (skipped lastStable pr); naive_solver.
Qed.

Lemma PrintReleaseNotes_backports (cl : ChangeLog) :
  prsWithUpstream (PrintReleaseNotes cl).1
  = backport_rest releaseNotesOrder cl.(prsWithUpstream).
Proof.
  destruct (main_pass_spec cl) as (liness0 & _ & Hmain).
  unfold PrintReleaseNotes. rewrite Hmain. unfold leftover_pass.
  case_decide; [done|].
  match goal with
  | |- context [foldl leftover_category (?c, ?o) releaseNotesOrder] =>
      destruct (leftover_fold releaseNotesOrder NoDup_releaseNotesOrder c o)
        as (liness & _ & ->)
  end.
  done.
Qed.

Lemma backport_entries_elem (outer : BackportPRs) (label : string)
    (bp prID : Z) (pr : PullRequest) :
  (bp, prID, pr) ∈ backport_entries outer label ↔
  ∃ inner, outer !! bp = Some inner ∧ inner !! prID = Some pr ∧
           pr.(ReleaseLabel) = label.
Proof.
  unfold backport_entries. rewrite list_elem_of_bind. split.
  - intros ([bp' inner] & Hin & Hbe%elem_of_map_to_list).
    apply list_elem_of_fmap in Hin as ([prID' pr'] & [= -> -> ->] & Hin).
    apply list_elem_of_filter in Hin as [Hl Hin%elem_of_map_to_list].
    by exists inner.
  - intros (inner & Hbp & Hid & Hl). exists (bp, inner).
    split; [|by apply elem_of_map_to_list].
    apply list_elem_of_fmap. exists (prID, pr). split; [done|].
    apply list_elem_of_filter. split; [done|by apply elem_of_map_to_list].
Qed.

Lemma backport_entries_NoDup (outer : BackportPRs) (label : string) :
  NoDup (backport_entries outer label).
Proof.
  unfold backport_entries. apply NoDup_bind.
  - intros [bp1 in1] [bp2 in2] [[bp prID] pr]
      Hin1%elem_of_map_to_list Hin2%elem_of_map_to_list
      (e1 & [= -> _ _] & _)%list_elem_of_fmap
      (e2 & [= Hbp _ _] & _)%list_elem_of_fmap.
    simpl in *. subst bp2. congruence.
  - intros [bp inner] _. apply NoDup_fmap_2.
    + intros [] []. simpl. congruence.
    + apply NoDup_filter, NoDup_map_to_list.
  - apply NoDup_map_to_list.
Qed.

(** C2, as the code has it: the scan of a category removes an entry of
    the flat mapping that carries the label of the category exactly when
    it emits it. An entry passed over as backported to the last-stable
    branch stays in the mapping, also after all the categories were
    scanned: it is what the diagnostic block works on. *)
Theorem flat_entry_removed_iff_emitted (cl : ChangeLog) (sc : Scan)
    (label : string) (prID : Z) (pr : PullRequest) :
  cl.(listOfPrs) !! prID = Some pr →
  pr.(ReleaseLabel) = label →
  let lastStable := cl.(config).(LastStable) in
  let scan := scan_flat label lastStable sc cl.(listOfPrs) in
  (∃ entries,
     entries ≡ₚ filter (flat_emits label lastStable)
                       (map_to_list cl.(listOfPrs)) ∧
     changelogItems scan.1 = changelogItems sc ++ (line_flat <$> entries) ∧
     ((prID, pr) ∈ entries ↔ skipped lastStable pr = false)) ∧
  scan.2 !! prID = (if skipped lastStable pr then Some pr else None) ∧
  (label ∈ releaseNotesOrder →
   listOfPrs (main_pass cl).1 !! prID
   = if skipped lastStable pr then Some pr else None).
Proof.
  intros Hin Hlabel lastStable scan. unfold scan.
  rewrite scan_flat_spec. simpl. split; [|split].
  - exists (filter (flat_emits label lastStable) (map_range (listOfPrs cl))).
    split; [by rewrite map_range_perm|]. split; [apply emitted_items|].
    rewrite list_elem_of_filter. unfold flat_emits, labelled. simpl.
    pose proof (proj2 (lists_range (listOfPrs cl)) prID pr). naive_solver.
  - destruct (skipped lastStable pr) eqn:Hs.
    + apply map_lookup_filter_Some. split; [done|].
      unfold flat_emits. simpl. intros [_ ?]. congruence.
    + apply map_lookup_filter_None. right. intros pr' Hpr'.
      simplify_eq. intros Hn. by apply Hn.
  - intros Horder.
    destruct (main_pass_spec cl) as (liness & _ & ->). simpl.
    fold lastStable.
    destruct (skipped lastStable pr) eqn:Hs.
    + apply flat_rest_lookup. split; [done|by left].
    + destruct (flat_rest _ _ _ !! prID) as [pr'|] eqn:Hrest; [|done].
      apply flat_rest_lookup in Hrest as [Hin' [Hs'|Hl]]; simplify_eq.
      * congruence.
      * done.
Qed.



End PrintFacts.

(** ** PrintReleaseNotes on the fixtures *)

Section PrintRuns.
Import Fixtures.

(** The scenario of the specification: a backport PR #20 that wraps the
    upstream PR #5, a flat PR #12, and a flat PR #10 backported to the
    last-stable branch. *)
Example PrintReleaseNotes_scenario :
  (@PrintReleaseNotes runtime cl_released).2 =
  [EvStdout ("Summary of Changes" +:+ LF);
   EvStdout ("------------------" +:+ LF);
   EvStdout LF;
   EvStdout ("**Minor Changes:**" +:+ LF);
   EvStdout ("* Add Y (Backport PR #20, Upstream PR #5, @bob)" +:+ LF);
   EvStdout LF;
   EvStdout ("**Bugfixes:**" +:+ LF);
   EvStdout ("* Fix X (#12, @alice)" +:+ LF);
   EvStderr (msg_notice "1.0");
   EvStderr "**Bugfixes:**";
   EvStderr "* Fix X (#10, @alice)"].
Proof. reflexivity. Qed.

Lemma flat_entry_removed_iff_emitted_witness :
  let scan :=
    @scan_flat runtime "release-note/bug" "1.0" scan0
               (listOfPrs cl_released) in
  (listOfPrs cl_released !! 12%Z = Some pr_fix ∧
   scan.2 !! 12%Z = None ∧
   listOfPrs (@main_pass runtime cl_released).1 !! 12%Z = None) ∧
  (listOfPrs cl_released !! 10%Z = Some pr_fix_released ∧
   scan.2 !! 10%Z = Some pr_fix_released ∧
   listOfPrs (@main_pass runtime cl_released).1 !! 10%Z
   = Some pr_fix_released).
Proof.
  intros scan. split.
  - split; [reflexivity|].
    pose proof (@flat_entry_removed_iff_emitted runtime cl_released scan0
                  "release-note/bug" 12%Z pr_fix) as H.
    destruct H as (_ & Hscan & Hmain); [reflexivity|reflexivity|].
    split; [exact Hscan|]. apply Hmain. vm_compute. repeat constructor.
  - split; [reflexivity|].
    pose proof (@flat_entry_removed_iff_emitted runtime cl_released scan0
                  "release-note/bug" 10%Z pr_fix_released) as H.
    destruct H as (_ & Hscan & Hmain); [reflexivity|reflexivity|].
    split; [exact Hscan|]. apply Hmain. vm_compute. repeat constructor.
Defined.

(** C2 as the specification words it fails: the entry #10, backported to
    [v1.0] with the last-stable string [1.0], carries the label of the
    category that is scanned, is passed over, and is still in the mapping
    after the scan and after all scans; the diagnostic block then works
    on it a second time. *)
Lemma flat_scan_keeps_skipped_entry :
  ReleaseLabel pr_fix_released = "release-note/bug" ∧
  listOfPrs cl_released !! 10%Z = Some pr_fix_released ∧
  (@scan_flat runtime "release-note/bug" "1.0" scan0
              (listOfPrs cl_released)).2 !! 10%Z
  = Some pr_fix_released ∧
  listOfPrs (@main_pass runtime cl_released).1 !! 10%Z
  = Some pr_fix_released ∧
  EvStderr "* Fix X (#10, @alice)" ∈ (@PrintReleaseNotes runtime cl_released).2.
Proof.
  repeat split; try reflexivity.
  vm_compute. repeat constructor.
Qed.




End PrintRuns.

(** * Further properties *)

(** ** Config.Sanitize: what is accepted, which error is returned *)

Section SanitizeMore.
Import ConfigSanitize.

Lemma is_empty_true (s : string) : is_empty s = true ↔ s = "".
Proof. unfold is_empty. apply String.eqb_eq. Qed.

Lemma is_empty_false (s : string) : is_empty s = false ↔ s ≠ "".
Proof. unfold is_empty. apply String.eqb_neq. Qed.

Lemma Contains_byte (s : string) (c : ascii) :
  Contains s (String c "") = true ↔ count_byte c s ≠ 0.
Proof.
  induction s as [|d s IH]; simpl; [done|].
  destruct (ascii_dec c d) as [->|Hne].
  - rewrite Ascii.eqb_refl. destruct s; simpl; split; (lia || done).
  - destruct (Ascii.eqb_spec d c) as [->|_]; [done|]. simpl.
    rewrite IH. done.
Qed.

Lemma Split_one (s : string) (sep : ascii) (b : string) :
  Split s sep = [b] → s = b ∧ count_byte sep b = 0.
Proof.
  revert b. induction s as [|c s IH]; intros b; simpl.
  - by intros [= <-].
  - destruct (Ascii.eqb_spec c sep) as [->|Hne].
    + intros [= _ Hnil]. pose proof (Split_length s sep) as Hlen.
      rewrite Hnil in Hlen. done.
    + destruct (Split s sep) as [|p ps] eqn:Hs; [|intros [= <- ->]].
      * pose proof (Split_length s sep) as Hlen. by rewrite Hs in Hlen.
      * destruct (IH p eq_refl) as [-> Hcount]. simpl.
        destruct (Ascii.eqb_spec c sep); done.
Qed.

Lemma Split_two (s : string) (sep : ascii) (a b : string) :
  Split s sep = [a; b] →
  s = a +:+ String sep b ∧ count_byte sep a = 0 ∧ count_byte sep b = 0.
Proof.
  revert a. induction s as [|c s IH]; intros a; simpl; [done|].
  destruct (Ascii.eqb_spec c sep) as [->|Hne].
  - intros [= <- Hb]. by apply Split_one in Hb as [-> ?].
  - destruct (Split s sep) as [|p ps] eqn:Hs; [done|].
    intros [= <- ->]. destruct (IH p eq_refl) as (-> & Hp & Hb).
    repeat split; [|done]. simpl.
    destruct (Ascii.eqb_spec c sep); done.
Qed.

Lemma Sanitize_body_two_parts (cfg : Config) :
  count_byte "/" cfg.(RepoName) = 1 →
  ∃ owner repo, Split cfg.(RepoName) "/" = [owner; repo].
Proof.
  intros Hcount. pose proof (Split_length cfg.(RepoName) "/") as Hlen.
  rewrite Hcount in Hlen.
  destruct (Split (RepoName cfg) "/") as [|a [|b [|c l]]]; try done.
  by exists a, b.
Qed.

(** X1 (lines 67-88): [Sanitize] accepts exactly the configurations
    whose repository name holds one slash, that have a base or a current
    version, a head or a current version, a state file, and no letter v
    in the last-stable string; any other configuration gets the error of
    the first check that fails, in the order repository name, base,
    head, state file, last-stable. *)
Theorem Sanitize_decision (cfg : Config) :
  let slash := count_byte "/" cfg.(RepoName) in
  let no_base := cfg.(Base) = "" ∧ cfg.(CurrVer) = "" in
  let no_head := cfg.(Head) = "" ∧ cfg.(CurrVer) = "" in
  let no_file := cfg.(StateFile) = "" in
  let has_v := count_byte "v" cfg.(LastStable) ≠ 0 in
  ((Sanitize cfg).1 = None ↔
   slash = 1 ∧ ¬ no_base ∧ ¬ no_head ∧ ¬ no_file ∧ ¬ has_v) ∧
  (slash ≠ 1 → (Sanitize cfg).1 = Some (err_repo_name cfg)) ∧
  (slash = 1 → no_base → (Sanitize cfg).1 = Some err_base) ∧
  (slash = 1 → ¬ no_base → no_head → (Sanitize cfg).1 = Some err_head) ∧
  (slash = 1 → ¬ no_base → ¬ no_head → no_file →
   (Sanitize cfg).1 = Some err_state_file) ∧
  (slash = 1 → ¬ no_base → ¬ no_head → ¬ no_file → has_v →
   (Sanitize cfg).1 = Some err_last_stable).
Proof.
  intros slash no_base no_head no_file has_v.
  rewrite Sanitize_fst.
  destruct (decide (slash = 1)) as [Hslash|Hslash]; last first.
  { rewrite Sanitize_body_bad_repo
      by (rewrite Split_length; unfold slash in Hslash; lia).
    simpl. split_and!; try (split; [done|]); intros; try done; tauto. }
  destruct (Sanitize_body_two_parts cfg Hslash) as (owner & repo & Hsplit).
  unfold Sanitize_body. rewrite Hsplit. simpl.
  assert (Hb : is_empty (Base cfg) && is_empty (CurrVer cfg) = true ↔ no_base).
  { rewrite andb_true_iff, !is_empty_true. done. }
  assert (Hh : is_empty (Head cfg) && is_empty (CurrVer cfg) = true ↔ no_head).
  { rewrite andb_true_iff, !is_empty_true. done. }
  assert (Hf : is_empty (StateFile cfg) = true ↔ no_file)
    by apply is_empty_true.
  assert (Hv : Contains (LastStable cfg) "v" = true ↔ has_v)
    by apply Contains_byte.
  assert (Hb' : is_empty (Base cfg) && is_empty (CurrVer cfg) = false
                → ¬ no_base) by (intros E H%Hb; congruence).
  assert (Hh' : is_empty (Head cfg) && is_empty (CurrVer cfg) = false
                → ¬ no_head) by (intros E H%Hh; congruence).
  assert (Hf' : is_empty (StateFile cfg) = false → ¬ no_file)
    by (intros E H%Hf; congruence).
  assert (Hv' : Contains (LastStable cfg) "v" = false → ¬ has_v)
    by (intros E H%Hv; congruence).
  destruct (is_empty (Base cfg) && is_empty (CurrVer cfg)).
  { assert no_base by (by apply Hb).
    simpl. split_and!; try (split; [done|]); intros; try done; tauto. }
  specialize (Hb' eq_refl).
  destruct (is_empty (Head cfg) && is_empty (CurrVer cfg)).
  { assert no_head by (by apply Hh).
    simpl. split_and!; try (split; [done|]); intros; try done; tauto. }
  specialize (Hh' eq_refl).
  destruct (is_empty (StateFile cfg)).
  { assert no_file by (by apply Hf).
    simpl. split_and!; try (split; [done|]); intros; try done; tauto. }
  specialize (Hf' eq_refl).
  destruct (Contains (LastStable cfg) "v").
  { assert has_v by (by apply Hv).
    simpl. split_and!; try (split; [done|]); intros; try done; tauto. }
  specialize (Hv' eq_refl).
  simpl. split_and!; try (split; [tauto|done]); intros; tauto.
Qed.

Lemma Sanitize_decision_witness :
  (Sanitize (mkConfig "" "" "1.0" "state.json" "cilium/cilium" "" ""
                      "1.15.0" "" false)).1 = None ∧
  (Sanitize (mkConfig "" "v2" "" "" "cilium/cilium" "" "" "" "" false)).1
  = Some err_base.
Proof.
  split.
  - apply (proj1 (Sanitize_decision
                    (mkConfig "" "" "1.0" "state.json" "cilium/cilium" ""
                              "" "1.15.0" "" false))).
    simpl. split_and!.
    + reflexivity.
    + intros [_ ?]. discriminate.
    + intros [_ ?]. discriminate.
    + discriminate.
    + intros H. apply H. reflexivity.
  - apply (proj1 (proj2 (proj2 (Sanitize_decision
                    (mkConfig "" "v2" "" "" "cilium/cilium" "" "" "" ""
                              false))))).
    + reflexivity.
    + split; reflexivity.
Defined.

(** X2 (lines 68-73): when the repository name holds one slash, the
    owner and the repository that [Sanitize] assigns in its own copy are
    the text before and after that slash: they hold no slash and give
    the name back when joined by one. *)
Theorem Sanitize_owner_repo (cfg : Config) :
  count_byte "/" cfg.(RepoName) = 1 →
  let cfg' := (Sanitize_body cfg).2 in
  cfg.(RepoName) = Owner cfg' +:+ "/" +:+ Repo cfg' ∧
  count_byte "/" (Owner cfg') = 0 ∧
  count_byte "/" (Repo cfg') = 0.
Proof.
  intros Hslash cfg'.
  destruct (Sanitize_body_two_parts cfg Hslash) as (owner & repo & Hsplit).
  assert (Owner cfg' = owner ∧ Repo cfg' = repo) as [-> ->].
  { unfold cfg', Sanitize_body. rewrite Hsplit.
    repeat (case_match; simpl); done. }
  by apply Split_two in Hsplit.
Qed.

Lemma Sanitize_owner_repo_witness :
  let cfg := mkConfig "v1" "v2" "1.0" "state.json" "cilium/release" "" ""
                      "" "" false in
  "cilium/release"
  = Owner (Sanitize_body cfg).2 +:+ "/" +:+ Repo (Sanitize_body cfg).2 ∧
  count_byte "/" (Owner (Sanitize_body cfg).2) = 0 ∧
  count_byte "/" (Repo (Sanitize_body cfg).2) = 0.
Proof.
  intros cfg. apply (Sanitize_owner_repo cfg). reflexivity.
Defined.

End SanitizeMore.

(** ** GenerateReleaseNotes: resumed runs, the store, what the walk asks
       for and hands on *)

Section WalkInvariant.
Context {W : Type} (env : Env W).

Lemma elem_of_with_sha (sha : string) (l : list string) :
  sha ∈ with_sha l ↔ sha ≠ "" ∧ sha ∈ l.
Proof. unfold with_sha. by rewrite list_elem_of_filter. Qed.

Lemma elem_of_append_sha (shas : list string) (x sha : string) :
  sha ∈ append_sha shas x ↔ sha ∈ shas ∨ (sha ≠ "" ∧ sha = x).
Proof.
  rewrite append_sha_with_sha, elem_of_app, elem_of_with_sha,
    list_elem_of_singleton.
  done.
Qed.

Lemma collect_elem (cc : list string) (i : nat) :
  ∀ shas shas' sha,
    collect cc i shas = Some shas' → sha ∈ shas' →
    sha ∈ shas ∨ (sha ≠ "" ∧ sha ∈ cc).
Proof.
  induction i as [|j IH]; intros shas shas' sha; simpl.
  - intros [= ->]. by left.
  - destruct (cc !! S j) as [x|] eqn:Hx; [|done].
    intros Hc Hin.
    destruct (IH _ _ _ Hc Hin) as [Hold|Hnew]; [|by right].
    apply elem_of_append_sha in Hold as [Hold|[Hne ->]]; [by left|right].
    split; [done|]. by eapply list_elem_of_lookup_2.
Qed.

(** What one iteration does to the identifiers and to the head. *)
Lemma walk_step_elem (st : WalkState) (cc : list string) :
  match walk_step st cc with
  | Continue st' =>
      (∀ sha, sha ∈ shas st' → sha ∈ shas st ∨ (sha ≠ "" ∧ sha ∈ cc)) ∧
      wcfg st' = set_Head (Head (wcfg st')) (wcfg st) ∧
      Head (wcfg st') ∈ shas st'
  | Break cfg' shas' =>
      (∀ sha, sha ∈ shas' → sha ∈ shas st ∨ (sha ≠ "" ∧ sha ∈ cc)) ∧
      cfg' = wcfg st ∧
      (∀ sha, sha ∈ shas st → sha ∈ shas')
  | OutOfRange => True
  end.
Proof.
  unfold walk_step. rewrite index_last, index_0.
  destruct (last cc) as [l|] eqn:Hlast; [|done].
  destruct (String.eqb (prevHead st) l).
  - destruct (head cc) as [c0|] eqn:Hhead; [|done].
    split; [|split; [done|]].
    + intros sha [?|[? ->]]%elem_of_append_sha; [by left|right].
      split; [done|]. by apply head_Some_elem_of.
    + intros sha ?. apply elem_of_append_sha. by left.
  - unfold collect_from. case_decide; [done|].
    destruct (collect cc _ (shas st)) as [shas'|] eqn:Hc; [|done].
    rewrite index_last.
    destruct (last shas') as [h|] eqn:Hh; [|done]. simpl.
    split; [|split].
    + intros sha. by eapply collect_elem.
    + by destruct (wcfg st).
    + by apply last_Some_elem_of.
Qed.

Lemma served_app (tr evs : list event) (sha : string) :
  served tr sha → served (tr ++ evs) sha.
Proof.
  intros (owner & repo & base & head & cc & Hin & Hsha).
  exists owner, repo, base, head, cc. split; [|done].
  apply elem_of_app. by left.
Qed.

Lemma compares_for_none (cfg : Config) (tr : list event) :
  Forall (λ ev, is_compare ev = false) tr → compares_for cfg tr.
Proof.
  intros Hall i owner repo base head res Hi.
  apply list_elem_of_lookup_2 in Hi.
  by apply (proj1 (Forall_forall _ _) Hall) in Hi.
Qed.

Lemma compares_for_app (cfg : Config) (tr evs : list event) :
  compares_for cfg tr → Forall (λ ev, is_compare ev = false) evs →
  compares_for cfg (tr ++ evs).
Proof.
  intros Htr Hall i owner repo base head res Hi.
  apply lookup_app_Some in Hi as [Hi|[_ Hi]].
  - rewrite take_app_le by (apply lookup_lt_Some in Hi; lia).
    by eapply Htr.
  - apply list_elem_of_lookup_2 in Hi.
    by apply (proj1 (Forall_forall _ _) Hall) in Hi.
Qed.

Lemma compares_for_step (cfg : Config) (tr : list event) (line head : string)
    (res : list string + error) :
  compares_for cfg tr →
  head = cfg.(Head) ∨ (head ≠ "" ∧ served tr head) →
  compares_for cfg
    (tr ++ [EvPrinter line;
            EvCompareCommits cfg.(Owner) cfg.(Repo) cfg.(Base) head res]).
Proof.
  intros Htr Hhead i owner repo base head' res' Hi.
  apply lookup_app_Some in Hi as [Hi|[Hle Hi]].
  - rewrite take_app_le by (apply lookup_lt_Some in Hi; lia).
    by eapply Htr.
  - destruct (i - length tr) as [|[|n]] eqn:Hn; simplify_eq/=.
    repeat split; try done.
    destruct Hhead as [->|[Hne Hs]]; [by left|right].
    split; [done|].
    rewrite take_app_ge by lia. by apply served_app.
Qed.

(** The walk from a state that holds identifiers with a SHA which the
    comparisons so far returned: so are those it ends with, its head is
    the head it started from or one of them, and it asks for nothing
    else. *)
Lemma walk_inv (cfg : Config) (fuel : nat) :
  ∀ (st : WalkState) (w : W) (tr : list event) (wr : walk_result)
    (w' : W) (tr' : list event),
    walk env fuel st (w, tr) = (wr, (w', tr')) →
    wcfg st = set_Head (Head (wcfg st)) cfg →
    Head (wcfg st) = Head cfg ∨ Head (wcfg st) ∈ shas st →
    (∀ sha, sha ∈ shas st → sha ≠ "" ∧ served tr sha) →
    compares_for cfg tr →
    compares_for cfg tr' ∧
    match wr with
    | WalkDone cfg' shas' =>
        cfg' = set_Head (Head cfg') cfg ∧
        (Head cfg' = Head cfg ∨ Head cfg' ∈ shas') ∧
        (∀ sha, sha ∈ shas' → sha ≠ "" ∧ served tr' sha)
    | _ => True
    end.
Proof.
  induction fuel as [|fuel IH];
    intros st w tr wr w' tr' Hwalk Hcfg Hhead Hshas Htr.
  { simpl in Hwalk. by injection Hwalk as <- <- <-. }
  rewrite walk_S in Hwalk. cbv zeta in Hwalk.
  destruct (CompareCommits _ _ _ _ _ _) as [r w1].
  set (line := "Comparing " +:+ _) in Hwalk.
  assert (compares_for cfg
            (tr ++ [EvPrinter line;
                    EvCompareCommits (Owner (wcfg st)) (Repo (wcfg st))
                      (Base (wcfg st)) (Head (wcfg st)) r])) as Htr1.
  { rewrite Hcfg. simpl.
    apply compares_for_step; [done|].
    destruct Hhead as [?|Hin]; [by left|right]. by apply Hshas. }
  destruct r as [cc|e]; [|by injection Hwalk as <- <- <-].
  set (tr1 := tr ++ _) in *.
  assert (Hcc : ∀ sha, sha ∈ cc → served tr1 sha).
  { intros sha Hsha.
    exists (Owner (wcfg st)), (Repo (wcfg st)), (Base (wcfg st)),
      (Head (wcfg st)), cc.
    split; [|done]. unfold tr1. set_solver. }
  assert (Hnew : ∀ shas' : list string,
            (∀ sha, sha ∈ shas' → sha ∈ shas st ∨ (sha ≠ "" ∧ sha ∈ cc)) →
            ∀ sha, sha ∈ shas' → sha ≠ "" ∧ served tr1 sha).
  { intros shas' Hfrom sha [Hold|[Hne Hin]]%Hfrom.
    - destruct (Hshas sha Hold) as [? ?]. split; [done|].
      by apply served_app.
    - split; [done|]. by apply Hcc. }
  pose proof (walk_step_elem st cc) as Hstep.
  destruct (walk_step st cc) as [st'|cfg' shas'|].
  - destruct Hstep as (Hfrom & Hcfg' & Hhead').
    apply IH in Hwalk; [done| |by right|by apply Hnew|done].
    rewrite Hcfg', Hcfg. by destruct cfg.
  - destruct Hstep as (Hfrom & -> & Hkeep).
    injection Hwalk as <- <- <-. split; [done|].
    split; [done|]. split; [|by apply Hnew].
    destruct Hhead as [?|?]; [by left|right]. by apply Hkeep.
  - by injection Hwalk as <- <- <-.
Qed.

End WalkInvariant.

Section GenerateMore.
Context {W : Type} (env : Env W).

Lemma before_classify_not_in (l : list event) (ev : event) :
  Forall before_classify l → is_store ev = true ∨ is_classify ev = true →
  ev ∉ l.
Proof.
  intros Hall Hev Hin.
  apply (proj1 (Forall_forall _ _) Hall) in Hin as [? ?].
  destruct Hev; congruence.
Qed.

Lemma string_app_empty_r (s : string) : s +:+ "" = s.
Proof.
  induction s as [|c s IH]; [done|].
  change (String c (s +:+ "") = String c s). by rewrite IH.
Qed.

(** The outcome of a walk that ends does not depend on the bound. *)
Lemma walk_fuel_mono (fuel : nat) :
  ∀ fuel' st s wr s',
    walk env fuel st s = (wr, s') → wr ≠ WalkOutOfFuel → fuel ≤ fuel' →
    walk env fuel' st s = (wr, s').
Proof.
  induction fuel as [|fuel IH]; intros fuel' st [w tr] wr s' Hwalk Hwr Hle.
  { simpl in Hwalk. by injection Hwalk as <- <-. }
  destruct fuel' as [|fuel']; [lia|].
  rewrite walk_S in Hwalk |- *. cbv zeta in Hwalk |- *.
  destruct (CompareCommits _ _ _ _ _ _) as [[cc|e] w1]; [|done].
  destruct (walk_step st cc); [|done|done].
  apply IH; [done|done|lia].
Qed.

(** X3 (lines 104-111, 156-158): when the state file is there, the run
    does not walk: whatever the bound, it returns, no comparison is made,
    the classifier is called only with what [LoadState] returned, and is
    called when that was read without error; a change log that is
    returned carries the configuration as it was given. *)
Theorem resume_skips_walk (fuel : nat) (cfg : Config) (w w' : W)
    (res : outcome (ChangeLog + error)) (tr : list event) :
  os_Stat env cfg.(StateFile) w = true →
  GenerateReleaseNotes env fuel cfg (w, []) = (res, (w', tr)) →
  let loaded := (LoadState env cfg.(StateFile) w).1 in
  (∃ r, res = Returns r) ∧
  Forall (λ ev, is_compare ev = false) tr ∧
  (∃ rest,
     tr = [EvStat cfg.(StateFile) true;
           EvPrinter ("Found state file, resuming from stored state" +:+ LF);
           EvLoadState cfg.(StateFile) loaded.2] ++ rest) ∧
  (∀ bp prs shas r,
     EvGeneratePatchRelease bp prs shas r ∈ tr →
     loaded = (bp, prs, shas, None)) ∧
  (loaded.2 = None →
   ∃ r, EvGeneratePatchRelease loaded.1.1.1 loaded.1.1.2 loaded.1.2 r ∈ tr) ∧
  (∀ cl, res = Returns (inl cl) → config cl = cfg).
Proof.
  intros Hstat. rewrite GenerateReleaseNotes_run. cbv zeta. rewrite Hstat.
  simpl app.
  destruct (LoadState _ _ _) as [[[[bp prs] shas] [e|]] w1]; simpl.
  - intros [= <- <- <-]. split; [by eexists|].
    split; [by repeat constructor|]. split; [by exists []|].
    split; [|split; [done|done]].
    intros bp0 prs0 shas0 r Hin. set_solver.
  - rewrite classify_and_store_run.
    destruct (GeneratePatchRelease _ _ _ _ _ _ _) as [r w2].
    destruct (StoreState _ _ _ _ _ _) as [err2 w3].
    intros [= <- <- <-]. split; [by eexists|].
    split; [|split; [by eexists|split; [|split]]].
    + apply (Forall_app _ [_; _; _]). split; [by repeat constructor|].
      apply classify_events_kinds.
    + intros bp0 prs0 shas0 r0 Hin.
      destruct r as [[[bp' prs'] leftShas] [e|]]; simpl in Hin;
        set_solver.
    + intros _. exists r.
      destruct r as [[[bp' prs'] leftShas] [e|]]; simpl; set_solver.
    + intros cl. by destruct (r.2); intros [= <-].
Qed.

(** X4 (lines 108-111): when the state file is there and cannot be read,
    the run does nothing after [LoadState]: it returns the error wrapped
    in "Unable to read persistence file", and has asked for no
    comparison, called no classifier and stored nothing. *)
Theorem state_read_error (fuel : nat) (cfg : Config) (w w1 : W)
    (bp : BackportPRs) (prs : PullRequests) (shas : list string)
    (e : error) :
  os_Stat env cfg.(StateFile) w = true →
  LoadState env cfg.(StateFile) w = ((bp, prs, shas, Some e), w1) →
  GenerateReleaseNotes env fuel cfg (w, []) =
  (Returns (inr (err_read e)),
   (w1, [EvStat cfg.(StateFile) true;
         EvPrinter ("Found state file, resuming from stored state" +:+ LF);
         EvLoadState cfg.(StateFile) (Some e)])) ∧
  Unwrap (err_read e) = Some e ∧
  Error (err_read e) = "Unable to read persistence file: " +:+ Error e.
Proof.
  intros Hstat Hload. rewrite GenerateReleaseNotes_run. cbv zeta.
  rewrite Hstat, Hload. simpl. split; [done|]. split; [done|].
  by rewrite string_app_empty_r.
Qed.

(** X5 (lines 156-171): in every run either neither the classifier nor
    [StoreState] is called, and then no change log is returned, or the
    classifier is called once and [StoreState] once after it, on the
    state file of the configuration and with the two mappings and the
    identifiers the classifier returned, error or not. *)
Theorem store_follows_classification (fuel : nat) (cfg : Config) (w w' : W)
    (res : outcome (ChangeLog + error)) (tr : list event) :
  GenerateReleaseNotes env fuel cfg (w, []) = (res, (w', tr)) →
  (Forall before_classify tr ∧ ∀ cl, res ≠ Returns (inl cl)) ∨
  (∃ pre bp prs shas bp' prs' leftShas err mid err2 post,
     tr = pre ++
          EvGeneratePatchRelease bp prs shas (bp', prs', leftShas, err) ::
          mid ++
          EvStoreState cfg.(StateFile) bp' prs' leftShas err2 :: post ∧
     Forall before_classify (pre ++ mid ++ post)).
Proof.
  intros Hrun.
  apply GenerateReleaseNotes_cases in Hrun
    as [(e0 & -> & _ & Hb)
       |[(pre & head0 & e0 & Hc)
        |[(Hres & _ & Hb)
         |(pre & head0 & bp & prs & shas & r & err2 & Hc)]]].
  - by left.
  - cbv zeta in Hc. destruct Hc as (-> & _ & _ & Hb). by left.
  - left. split; [done|]. by destruct Hres as [-> | ->].
  - cbv zeta in Hc. destruct Hc as (_ & -> & _ & Hb). right.
    destruct r as [[[bp' prs'] leftShas] err].
    exists (pre ++ [EvPrinter (msg_found_commits shas)]), bp, prs, shas,
      bp', prs', leftShas, err.
    destruct err as [e|]; simpl.
    + eexists [_; _], err2, [_]. split; [by rewrite <- app_assoc|].
      rewrite <- app_assoc. apply Forall_app. split; [done|].
      by repeat constructor.
    + eexists [_], err2, [_; _]. split; [by rewrite <- app_assoc|].
      rewrite <- app_assoc. apply Forall_app. split; [done|].
      by repeat constructor.
Qed.

(** X6 (lines 163-179): when the classifier returns no error, the run
    stores what it returned, prints how the store went, and returns the
    change log of the two mappings with a nil error, also when the store
    failed: a failed store is only printed. The configuration of the
    change log is the one given, up to its [Head]. *)
Theorem store_failure_keeps_result (fuel : nat) (cfg : Config) (w w' : W)
    (res : outcome (ChangeLog + error)) (tr : list event)
    (bp bp' : BackportPRs) (prs prs' : PullRequests)
    (shas leftShas : list string) :
  GenerateReleaseNotes env fuel cfg (w, []) = (res, (w', tr)) →
  EvGeneratePatchRelease bp prs shas (bp', prs', leftShas, None) ∈ tr →
  ∃ pre err2 head,
    tr = pre ++
         [EvGeneratePatchRelease bp prs shas (bp', prs', leftShas, None);
          EvStdout LF;
          EvStoreState cfg.(StateFile) bp' prs' leftShas err2;
          EvPrinter (match err2 with
                     | None => msg_stored cfg
                     | Some e2 => msg_unable_to_store e2
                     end);
          EvPrinter (msg_found_prs prs' bp')] ∧
    Forall (λ ev, is_store ev = false) pre ∧
    res = Returns (inl (mkChangeLog (set_Head head cfg) bp' prs')).
Proof.
  intros Hrun Hin.
  assert (Hno : ∀ l, Forall before_classify l →
    EvGeneratePatchRelease bp prs shas (bp', prs', leftShas, None) ∉ l).
  { intros l Hl. apply before_classify_not_in; [done|by right]. }
  apply GenerateReleaseNotes_cases in Hrun
    as [(e0 & -> & _ & Hb)
       |[(pre & head0 & e0 & Hc)
        |[(_ & _ & Hb)
         |(pre & head0 & bp0 & prs0 & shas0 & r & err2 & Hc)]]].
  - by apply Hno in Hb.
  - cbv zeta in Hc. destruct Hc as (_ & _ & _ & Hb). by apply Hno in Hb.
  - by apply Hno in Hb.
  - cbv zeta in Hc. destruct Hc as (-> & -> & _ & Hb).
    apply elem_of_app in Hin as [Hin|Hin]; [by apply Hno in Hb|].
    destruct r as [[[bp1 prs1] left1] err1].
    assert (bp0 = bp ∧ prs0 = prs ∧ shas0 = shas ∧
            (bp1, prs1, left1, err1) = (bp', prs', leftShas, None))
      as (-> & -> & -> & Hr).
    { simpl in Hin. destruct err1; set_solver. }
    injection Hr as -> -> -> ->.
    exists (pre ++ [EvPrinter (msg_found_commits shas)]), err2, head0.
    split; [by rewrite <- app_assoc|]. split; [|done].
    apply Forall_app. split; [|by repeat constructor].
    eapply Forall_impl; [done|]. by intros ev [? _].
Qed.

(** X7 (lines 99-101, 113-153, 158): when there is no state file, the
    classifier is called with two empty mappings and with identifiers
    that all have a SHA and were all returned by a comparison of the
    run; the head of the configuration in the change log is the head
    given or one of these identifiers, and nothing else of the
    configuration has changed. *)
Theorem classifier_gets_served_commits (fuel : nat) (cfg : Config) (w w' : W)
    (res : outcome (ChangeLog + error)) (tr : list event)
    (bp : BackportPRs) (prs : PullRequests) (shas : list string)
    (r : BackportPRs * PullRequests * list string * option error) :
  os_Stat env cfg.(StateFile) w = false →
  GenerateReleaseNotes env fuel cfg (w, []) = (res, (w', tr)) →
  EvGeneratePatchRelease bp prs shas r ∈ tr →
  bp = ∅ ∧ prs = ∅ ∧
  (∀ sha, sha ∈ shas → sha ≠ "" ∧ served tr sha) ∧
  (∀ cl, res = Returns (inl cl) →
         config cl = set_Head (Head (config cl)) cfg ∧
         (Head (config cl) = Head cfg ∨ Head (config cl) ∈ shas)).
Proof.
  intros Hstat. rewrite GenerateReleaseNotes_run. cbv zeta. rewrite Hstat.
  simpl app.
  destruct (walk _ _ _ _) as [wr [w1 tr1]] eqn:Hwalk.
  pose proof Hwalk as Htrace.
  apply walk_trace in Htrace as (evs & -> & Hall & _).
  assert (Forall before_classify ([EvStat (StateFile cfg) false] ++ evs))
    as Hbefore.
  { apply Forall_app. split; [by repeat constructor|].
    eapply Forall_impl; [done|]. intros ev. apply walk_event_kinds. }
  apply (walk_inv env cfg) in Hwalk as [_ Hdone];
    [|by destruct cfg|by left|by intros sha ?%elem_of_nil
     |by apply compares_for_none; repeat constructor].
  destruct wr as [cfg' shas'|err| |].
  - destruct Hdone as (Hcfg' & Hhead & Hshas).
    rewrite classify_and_store_run.
    destruct (GeneratePatchRelease _ _ _ _ _ _ _) as [r0 w2].
    destruct (StoreState _ _ _ _ _ _) as [err2 w3].
    intros [= <- <- <-] Hin. rewrite app_comm_cons in Hin.
    apply elem_of_app in Hin as [Hin|Hin];
      [by eapply before_classify_not_in in Hin; [|done|by right]|].
    assert (bp = ∅ ∧ prs = ∅ ∧ shas = shas') as (-> & -> & ->).
    { destruct r0 as [[[bp' prs'] leftShas] [e|]]; simpl in Hin;
        set_solver. }
    split; [done|]. split; [done|]. split.
    + intros sha Hsha. destruct (Hshas sha Hsha) as [? ?].
      split; [done|]. rewrite app_comm_cons. by apply served_app.
    + intros cl. by destruct (r0.2); intros [= <-].
  - intros [= <- <- <-] Hin.
    by eapply before_classify_not_in in Hin; [|done|by right].
  - intros [= <- <- <-] Hin.
    by eapply before_classify_not_in in Hin; [|done|by right].
  - intros [= <- <- <-] Hin.
    by eapply before_classify_not_in in Hin; [|done|by right].
Qed.

(** X8 (lines 117-118, 150): every comparison of a run is made for the
    owner, the repository and the base of the configuration, and for its
    head or for an identifier with a SHA that an earlier comparison of
    the run returned. *)
Theorem comparisons_ask_for_served_heads (fuel : nat) (cfg : Config)
    (w w' : W) (res : outcome (ChangeLog + error)) (tr : list event)
    (i : nat) (owner repo base head : string) (r : list string + error) :
  GenerateReleaseNotes env fuel cfg (w, []) = (res, (w', tr)) →
  tr !! i = Some (EvCompareCommits owner repo base head r) →
  owner = cfg.(Owner) ∧ repo = cfg.(Repo) ∧ base = cfg.(Base) ∧
  (head = cfg.(Head) ∨ (head ≠ "" ∧ served (take i tr) head)).
Proof.
  intros Hrun. revert i owner repo base head r.
  change (compares_for cfg tr).
  revert Hrun. rewrite GenerateReleaseNotes_run. cbv zeta. simpl app.
  destruct (os_Stat env (StateFile cfg) w).
  - destruct (LoadState _ _ _) as [[[[bp prs] shas] [e|]] w1]; simpl.
    + intros [= <- <- <-]. apply compares_for_none. by repeat constructor.
    + rewrite classify_and_store_run.
      destruct (GeneratePatchRelease _ _ _ _ _ _ _) as [r w2].
      destruct (StoreState _ _ _ _ _ _) as [err2 w3].
      intros [= <- <- <-]. apply compares_for_none.
      apply (Forall_app _ [_; _; _]). split; [by repeat constructor|].
      apply classify_events_kinds.
  - destruct (walk _ _ _ _) as [wr [w1 tr1]] eqn:Hwalk.
    apply (walk_inv env cfg) in Hwalk as [Hcmp _];
      [|by destruct cfg|by left|by intros sha ?%elem_of_nil
       |by apply compares_for_none; repeat constructor].
    destruct wr as [cfg' shas'|err| |]; try by intros [= <- <- <-].
    rewrite classify_and_store_run.
    destruct (GeneratePatchRelease _ _ _ _ _ _ _) as [r w2].
    destruct (StoreState _ _ _ _ _ _) as [err2 w3].
    intros [= <- <- <-]. apply compares_for_app; [done|].
    apply classify_events_kinds.
Qed.

(** X9 (lines 122-152): a first response of two commits, both with a SHA,
    stops the walk at the next comparison when that is answered alike:
    the walk takes the head from the response, asks once more for the
    same head, finds the last commit it saw and ends with the two
    identifiers, whatever the history before them. *)
Theorem walk_page_of_two (cfg : Config) (a : string) (fuel : nat) (w : W)
    (tr : list event) :
  a ≠ "" → cfg.(Head) ≠ "" →
  (∀ w0, ∃ w1,
     CompareCommits env cfg.(Owner) cfg.(Repo) cfg.(Base) cfg.(Head) w0
     = (inl [a; cfg.(Head)], w1)) →
  ∃ w',
    let asked :=
      [EvPrinter ("Comparing " +:+ cfg.(Base) +:+ "..." +:+ cfg.(Head) +:+ LF);
       EvCompareCommits cfg.(Owner) cfg.(Repo) cfg.(Base) cfg.(Head)
                        (inl [a; cfg.(Head)])] in
    walk env (S (S fuel)) (walk_init cfg) (w, tr)
    = (WalkDone cfg [cfg.(Head); a], (w', tr ++ asked ++ asked)).
Proof.
  intros Ha Hh Hcmp.
  destruct (Hcmp w) as [w1 H1]. destruct (Hcmp w1) as [w2 H2].
  exists w2. cbv zeta.
  assert (walk_step (walk_init cfg) [a; Head cfg]
          = Continue (mkWalkState cfg true (Head cfg) [Head cfg])) as Hstep.
  { etrans; [by apply (walk_step_continue (walk_init cfg) a (Head cfg) [])|].
    simpl. rewrite with_sha_id by (by intros ?%list_elem_of_singleton).
    simpl. by destruct cfg. }
  rewrite walk_S. cbv zeta. simpl wcfg. rewrite H1, Hstep.
  rewrite walk_S. cbv zeta. simpl wcfg. rewrite H2.
  erewrite walk_step_break; [|done|done|done]. simpl.
  rewrite append_sha_with_sha, with_sha_id
    by (by intros ?%list_elem_of_singleton).
  by rewrite <- app_assoc.
Qed.


(** The call behind a store event of a run: it is made on the state file
    of the configuration, and the world it leaves is the one the run
    ends in. *)
Lemma store_event_call (fuel : nat) (cfg : Config) (w w' : W)
    (res : outcome (ChangeLog + error)) (tr : list event) (file : string)
    (bp' : BackportPRs) (prs' : PullRequests) (leftShas : list string)
    (err2 : option error) :
  GenerateReleaseNotes env fuel cfg (w, []) = (res, (w', tr)) →
  EvStoreState file bp' prs' leftShas err2 ∈ tr →
  file = cfg.(StateFile) ∧
  ∃ w0, StoreState env file bp' prs' leftShas w0 = (err2, w').
Proof.
  assert (Hclassify : ∀ cfg' bp prs shas s0 res0 tr0,
            StateFile cfg' = StateFile cfg →
            Forall before_classify s0.2 →
            classify_and_store env cfg' bp prs shas s0 = (res0, (w', tr0)) →
            EvStoreState file bp' prs' leftShas err2 ∈ tr0 →
            file = cfg.(StateFile) ∧
            ∃ w0, StoreState env file bp' prs' leftShas w0 = (err2, w')).
  { intros cfg' bp prs shas [w0 tr0] res0 tr1 Hfile Hbefore.
    rewrite classify_and_store_run.
    destruct (GeneratePatchRelease _ _ _ _ _ _ _) as [r w2].
    destruct (StoreState _ _ _ _ _ _) as [e2 w3] eqn:Hstore.
    intros [= <- <- <-] Hin.
    apply elem_of_app in Hin as [Hin|Hin];
      [by eapply before_classify_not_in in Hin; [|done|by left]|].
    destruct r as [[[bp1 prs1] left1] err1]. simpl in Hstore.
    assert (file = StateFile cfg' ∧ bp' = bp1 ∧ prs' = prs1 ∧
            leftShas = left1 ∧ err2 = e2) as (-> & -> & -> & -> & ->).
    { simpl in Hin. destruct err1; set_solver. }
    split; [done|]. by exists w2. }
  rewrite GenerateReleaseNotes_run. cbv zeta. simpl app.
  destruct (os_Stat env (StateFile cfg) w).
  - destruct (LoadState _ _ _) as [[[[bp prs] shas] [e|]] w1]; simpl.
    + intros [= <- <- <-] Hin. set_solver.
    + destruct (classify_and_store _ _ _ _ _ _) as [res0 [w2 tr2]] eqn:Hc.
      intros [= <- <- <-]. eapply Hclassify; [|..|done]; [done|].
      simpl. by repeat constructor.
  - destruct (walk _ _ _ _) as [wr [w1 tr1]] eqn:Hwalk.
    apply walk_trace in Hwalk as (evs & -> & Hall & Hres).
    assert (Forall before_classify ([EvStat (StateFile cfg) false] ++ evs))
      as Hbefore.
    { apply Forall_app. split; [by repeat constructor|].
      eapply Forall_impl; [done|]. intros ev. apply walk_event_kinds. }
    destruct wr as [cfg' shas'|err| |].
    + destruct Hres as [Hcfg _].
      destruct (classify_and_store _ _ _ _ _ _) as [res0 [w2 tr2]] eqn:Hc.
      intros [= <- <- <-]. eapply Hclassify; [|..|done]; [|done].
      rewrite Hcfg. done.
    + intros [= <- <- <-] Hin.
      by eapply before_classify_not_in in Hin; [|done|by left].
    + intros [= <- <- <-] Hin.
      by eapply before_classify_not_in in Hin; [|done|by left].
    + intros [= <- <- <-] Hin.
      by eapply before_classify_not_in in Hin; [|done|by left].
Qed.

(** X11 (lines 104-111, 158-163): a run that stored its state and the
    next run, over a store that gives back what it was given. The next
    run, started in the world the first one left, makes no comparison
    and calls the classifier with the two mappings and the identifiers
    that the classifier of the first run returned: it goes on where the
    first one stopped. *)
Theorem next_run_resumes (fuel fuel' : nat) (cfg : Config) (w w1 w2 : W)
    (res res2 : outcome (ChangeLog + error)) (tr tr2 : list event)
    (bp' : BackportPRs) (prs' : PullRequests) (leftShas : list string) :
  (∀ file bp prs left w0 w0',
     StoreState env file bp prs left w0 = (None, w0') →
     os_Stat env file w0' = true ∧
     ∃ w0'', LoadState env file w0' = ((bp, prs, left, None), w0'')) →
  GenerateReleaseNotes env fuel cfg (w, []) = (res, (w1, tr)) →
  EvStoreState cfg.(StateFile) bp' prs' leftShas None ∈ tr →
  GenerateReleaseNotes env fuel' cfg (w1, []) = (res2, (w2, tr2)) →
  Forall (λ ev, is_compare ev = false) tr2 ∧
  (∃ r, EvGeneratePatchRelease bp' prs' leftShas r ∈ tr2) ∧
  (∃ r, res2 = Returns r).
Proof.
  intros Hround Hrun Hin.
  destruct (store_event_call _ _ _ _ _ _ _ _ _ _ _ Hrun Hin)
    as (_ & w0 & Hstore).
  apply Hround in Hstore as (Hstat & w0' & Hload).
  rewrite GenerateReleaseNotes_run. cbv zeta. rewrite Hstat, Hload.
  simpl. rewrite classify_and_store_run.
  destruct (GeneratePatchRelease _ _ _ _ _ _ _) as [r w3].
  destruct (StoreState _ _ _ _ _ _) as [e2 w4].
  intros [= <- <- <-]. split; [|split; [|by eexists]].
  - apply (Forall_app _ [_; _; _]). split; [by repeat constructor|].
    apply classify_events_kinds.
  - exists r. destruct r as [[[bp1 prs1] left1] [e|]]; simpl; set_solver.
Qed.

End GenerateMore.

(** ** More runs on the fixtures *)

Section GenerateMoreRuns.
Import Fixtures.

Lemma resume_skips_walk_witness :
  let run :=
    GenerateReleaseNotes (env scripted None None) 0 cfg0
                         (mkWorld [] (Some (∅, ∅, ["c2"; "c1"])), []) in
  (∃ r, run.1 = Returns r) ∧
  Forall (λ ev, is_compare ev = false) run.2.2 ∧
  (∃ r, EvGeneratePatchRelease ∅ ∅ ["c2"; "c1"] r ∈ run.2.2) ∧
  (∀ cl, run.1 = Returns (inl cl) → config cl = cfg0).
Proof.
  intros run.
  destruct (resume_skips_walk (env scripted None None) 0 cfg0
              (mkWorld [] (Some (∅, ∅, ["c2"; "c1"]))) run.2.1 run.1
              run.2.2) as (Hret & Hcmp & _ & _ & Hcall & Hcfg).
  - reflexivity.
  - reflexivity.
  - split; [exact Hret|]. split; [exact Hcmp|].
    split; [|exact Hcfg]. apply Hcall. reflexivity.
Defined.

Lemma state_read_error_witness :
  let corrupt := errorString "unexpected end of JSON input" in
  GenerateReleaseNotes (env_unreadable corrupt) 3 cfg0 (mkWorld [] None, [])
  = (Returns (inr (err_read corrupt)),
     (mkWorld [] None,
      [EvStat "state.json" true;
       EvPrinter ("Found state file, resuming from stored state" +:+ LF);
       EvLoadState "state.json" (Some corrupt)])) ∧
  Unwrap (err_read corrupt) = Some corrupt ∧
  Error (err_read corrupt)
  = "Unable to read persistence file: unexpected end of JSON input".
Proof.
  intros corrupt.
  apply (state_read_error (env_unreadable corrupt) 3 cfg0 (mkWorld [] None)
           (mkWorld [] None) ∅ ∅ [] corrupt).
  - reflexivity.
  - reflexivity.
Defined.

Lemma store_follows_classification_witness :
  let run :=
    GenerateReleaseNotes (env (paged ["c1"; "c2"; "c3"] 3) None None) 5
                         (set_Head "c3" cfg0) (mkWorld [] None, []) in
  (Forall before_classify run.2.2 ∧ ∀ cl, run.1 ≠ Returns (inl cl)) ∨
  (∃ pre bp prs shas bp' prs' leftShas err mid err2 post,
     run.2.2 = pre ++
       EvGeneratePatchRelease bp prs shas (bp', prs', leftShas, err) ::
       mid ++ EvStoreState "state.json" bp' prs' leftShas err2 :: post ∧
     Forall before_classify (pre ++ mid ++ post)).
Proof.
  intros run.
  apply (store_follows_classification
           (env (paged ["c1"; "c2"; "c3"] 3) None None) 5
           (set_Head "c3" cfg0) (mkWorld [] None) run.2.1 run.1 run.2.2).
  reflexivity.
Defined.

Lemma store_failure_keeps_result_witness :
  let disk := errorString "disk full" in
  let run :=
    GenerateReleaseNotes (env (paged ["c1"; "c2"; "c3"] 3) None (Some disk))
                         5 (set_Head "c3" cfg0) (mkWorld [] None, []) in
  ∃ pre err2 head,
    run.2.2 = pre ++
      [EvGeneratePatchRelease ∅ ∅ ["c3"; "c2"; "c1"]
                              (∅, ∅, ["c3"; "c2"; "c1"], None);
       EvStdout LF;
       EvStoreState "state.json" ∅ ∅ ["c3"; "c2"; "c1"] err2;
       EvPrinter (match err2 with
                  | None => msg_stored (set_Head "c3" cfg0)
                  | Some e2 => msg_unable_to_store e2
                  end);
       EvPrinter (msg_found_prs ∅ ∅)] ∧
    Forall (λ ev, is_store ev = false) pre ∧
    run.1 = Returns (inl (mkChangeLog (set_Head head (set_Head "c3" cfg0))
                                      ∅ ∅)).
Proof.
  intros disk run.
  apply (store_failure_keeps_result
           (env (paged ["c1"; "c2"; "c3"] 3) None (Some disk)) 5
           (set_Head "c3" cfg0) (mkWorld [] None) run.2.1 run.1 run.2.2).
  - reflexivity.
  - vm_compute. repeat constructor.
Defined.

Lemma classifier_gets_served_commits_witness :
  let run :=
    GenerateReleaseNotes (env (paged ["c1"; "c2"; "c3"; "c4"] 3) None None)
                         5 (set_Head "c4" cfg0) (mkWorld [] None, []) in
  (∀ sha, sha ∈ ["c4"; "c3"; "c2"; "c1"] → sha ≠ "" ∧ served run.2.2 sha) ∧
  (∀ cl, run.1 = Returns (inl cl) →
         config cl = set_Head (Head (config cl)) (set_Head "c4" cfg0) ∧
         (Head (config cl) = "c4" ∨
          Head (config cl) ∈ ["c4"; "c3"; "c2"; "c1"])).
Proof.
  intros run.
  destruct (classifier_gets_served_commits
              (env (paged ["c1"; "c2"; "c3"; "c4"] 3) None None) 5
              (set_Head "c4" cfg0) (mkWorld [] None) run.2.1 run.1 run.2.2
              ∅ ∅ ["c4"; "c3"; "c2"; "c1"]
              (∅, ∅, ["c4"; "c3"; "c2"; "c1"], None))
    as (_ & _ & Hshas & Hcfg).
  - reflexivity.
  - reflexivity.
  - vm_compute. repeat constructor.
  - split; [exact Hshas|exact Hcfg].
Defined.

Lemma comparisons_ask_for_served_heads_witness :
  let run :=
    GenerateReleaseNotes (env (paged ["c1"; "c2"; "c3"; "c4"] 3) None None)
                         5 (set_Head "c4" cfg0) (mkWorld [] None, []) in
  run.2.2 !! 4 = Some (EvCompareCommits "cilium" "cilium" "v1" "c3"
                                        (inl ["c1"; "c2"; "c3"])) ∧
  ("c3" = "c4" ∨ ("c3" ≠ "" ∧ served (take 4 run.2.2) "c3")).
Proof.
  intros run. split; [reflexivity|].
  apply (comparisons_ask_for_served_heads
           (env (paged ["c1"; "c2"; "c3"; "c4"] 3) None None) 5
           (set_Head "c4" cfg0) (mkWorld [] None) run.2.1 run.1 run.2.2 4
           "cilium" "cilium" "v1" "c3" (inl ["c1"; "c2"; "c3"])).
  - reflexivity.
  - reflexivity.
Defined.

Lemma walk_page_of_two_witness :
  ∃ w',
    walk (env (paged ["c1"; "c2"; "c3"; "c4"] 2) None None) 2
         (walk_init (set_Head "c4" cfg0)) (mkWorld [] None, [])
    = (WalkDone (set_Head "c4" cfg0) ["c4"; "c3"],
       (w', let asked :=
              [EvPrinter ("Comparing v1...c4" +:+ LF);
               EvCompareCommits "cilium" "cilium" "v1" "c4"
                                (inl ["c3"; "c4"])] in
            asked ++ asked)).
Proof.
  apply (walk_page_of_two (env (paged ["c1"; "c2"; "c3"; "c4"] 2) None None)
           (set_Head "c4" cfg0) "c3" 0 (mkWorld [] None) []).
  - discriminate.
  - discriminate.
  - intros w0. exists w0. reflexivity.
Defined.


Lemma next_run_resumes_witness :
  let rate := errorString "rate limit" in
  let e := env (paged ["c1"; "c2"; "c3"] 3) (Some rate) None in
  let first :=
    GenerateReleaseNotes e 5 (set_Head "c3" cfg0) (mkWorld [] None, []) in
  let second :=
    GenerateReleaseNotes e 0 (set_Head "c3" cfg0) (first.2.1, []) in
  first.1 = Returns (inr (err_retrieve rate)) ∧
  Forall (λ ev, is_compare ev = false) second.2.2 ∧
  (∃ r, EvGeneratePatchRelease ∅ ∅ ["c3"; "c2"; "c1"] r ∈ second.2.2) ∧
  (∃ r, second.1 = Returns r).
Proof.
  intros rate e first second. split; [reflexivity|].
  apply (next_run_resumes e 5 0 (set_Head "c3" cfg0) (mkWorld [] None)
           first.2.1 second.2.1 first.1 second.1 first.2.2 second.2.2
           ∅ ∅ ["c3"; "c2"; "c1"]).
  - intros file bp prs left w0 w0'. simpl. intros [= <-]. simpl.
    split; [reflexivity|]. by eexists.
  - reflexivity.
  - vm_compute. repeat constructor.
  - reflexivity.
Defined.

End GenerateMoreRuns.

(** ** PrintReleaseNotes: the whole output and the change log it leaves *)

Section PrintWhole.
Context `{rt : GoRuntime}.

(** One category of the first loop, with the items as they are handed to
    [sort.Slice]. *)
Lemma main_category_sorted (cl : ChangeLog) (out : list event)
    (label : string) :
  ∃ items,
    items ≡ₚ main_items cl label ∧
    main_category (cl, out) label =
    (mkChangeLog cl.(config)
       (filter (λ e, ¬ labelled label e) <$> cl.(prsWithUpstream))
       (filter (λ e, ¬ flat_emits label cl.(config).(LastStable) e)
               cl.(listOfPrs)),
     out ++ stdout_section label (sort_Slice less_lower items)).
Proof.
  unfold main_category.
  rewrite scan_backports_spec, scan_flat_spec, emitted_app, emitted_fresh.
  simpl.
  set (items := (line_backport <$> range_backport_entries _ _) ++
                (line_flat <$> _)).
  exists items.
  assert (sort_Slice less_lower items ≡ₚ items) as Hsort
    by apply sort_Slice_perm.
  split.
  - unfold items, main_items.
    by rewrite range_backport_entries_perm, map_range_perm.
  - f_equal. rewrite <- app_assoc. f_equal. unfold stdout_section.
    f_equal. destruct items as [|item items].
    + by apply Permutation_nil_r in Hsort as ->.
    + destruct (sort_Slice less_lower (item :: items)); [|done].
      symmetry in Hsort. by apply Permutation_nil_r in Hsort.
Qed.

Lemma leftover_category_sorted (cl : ChangeLog) (out : list event)
    (label : string) :
  ∃ items,
    items ≡ₚ line_flat <$> filter (labelled label)
                                  (map_to_list cl.(listOfPrs)) ∧
    leftover_category (cl, out) label =
    (mkChangeLog cl.(config) cl.(prsWithUpstream)
       (filter (λ e, ¬ labelled label e) cl.(listOfPrs)),
     out ++ stderr_section label (sort_Slice less_lower items)).
Proof.
  unfold leftover_category.
  rewrite scan_leftover_spec, emitted_fresh. simpl.
  set (items := line_flat <$> filter _ (map_range _)).
  exists items.
  assert (sort_Slice less_lower items ≡ₚ items) as Hsort
    by apply sort_Slice_perm.
  split.
  - unfold items. by rewrite map_range_perm.
  - f_equal. rewrite <- app_assoc. f_equal. unfold stderr_section.
    f_equal. destruct items as [|item items].
    + by apply Permutation_nil_r in Hsort as ->.
    + destruct (sort_Slice less_lower (item :: items)); [|done].
      symmetry in Hsort. by apply Permutation_nil_r in Hsort.
Qed.

Lemma main_fold_sorted (labels : list string) :
  NoDup labels →
  ∀ (cl : ChangeLog) (out : list event),
    ∃ itemss,
      Forall2 (λ label items, items ≡ₚ main_items cl label) labels itemss ∧
      foldl main_category (cl, out) labels =
      (mkChangeLog cl.(config)
         (backport_rest labels cl.(prsWithUpstream))
         (flat_rest labels cl.(config).(LastStable) cl.(listOfPrs)),
       out ++ concat (zip_with stdout_section labels
                               (sort_Slice less_lower <$> itemss))).
Proof.
  induction labels as [|label labels IH]; intros Hnd cl out.
  - exists []. split; [constructor|]. simpl.
    rewrite backport_rest_nil, flat_rest_nil, app_nil_r. by destruct cl.
  - apply NoDup_cons in Hnd as [Hnotin Hnd].
    destruct (main_category_sorted cl out label) as (items & Hitems & Heq).
    cbn [foldl]. rewrite Heq.
    match goal with
    | |- context [foldl main_category (?c, ?o) labels] =>
        destruct (IH Hnd c o) as (itemss & Hall & Heq')
    end.
    exists (items :: itemss). split.
    + constructor; [done|].
      eapply Forall2_impl_in; [done|].
      intros label' items' Hin Hp. simpl in Hp.
      rewrite Hp. apply main_items_after. by intros ->.
    + rewrite Heq'. simpl.
      by rewrite backport_rest_cons, flat_rest_cons, <- app_assoc.
Qed.

Lemma leftover_fold_sorted (labels : list string) :
  NoDup labels →
  ∀ (cl : ChangeLog) (out : list event),
    ∃ itemss,
      Forall2 (λ label items,
                 items ≡ₚ line_flat <$> filter (labelled label)
                                               (map_to_list cl.(listOfPrs)))
              labels itemss ∧
      foldl leftover_category (cl, out) labels =
      (mkChangeLog cl.(config) cl.(prsWithUpstream)
         (filter (λ e : Z * PullRequest, e.2.(ReleaseLabel) ∉ labels)
                 cl.(listOfPrs)),
       out ++ concat (zip_with stderr_section labels
                               (sort_Slice less_lower <$> itemss))).
Proof.
  induction labels as [|label labels IH]; intros Hnd cl out.
  - exists []. split; [constructor|]. simpl. rewrite app_nil_r.
    rewrite map_filter_id; [by destruct cl|].
    intros id pr _. by intros ?%elem_of_nil.
  - apply NoDup_cons in Hnd as [Hnotin Hnd].
    destruct (leftover_category_sorted cl out label)
      as (items & Hitems & Heq).
    cbn [foldl]. rewrite Heq.
    match goal with
    | |- context [foldl leftover_category (?c, ?o) labels] =>
        destruct (IH Hnd c o) as (itemss & Hall & Heq')
    end.
    exists (items :: itemss). split.
    + constructor; [done|].
      eapply Forall2_impl_in; [done|].
      intros label' items' Hin Hp. simpl in Hp.
      rewrite Hp. apply fmap_Permutation.
      apply (filter_map_to_list_filter _ _ (labelled label')).
      intros e. unfold labelled. split; [tauto|].
      intros He. split; [done|]. intros He'. apply Hnotin. congruence.
    + rewrite Heq'. simpl. rewrite <- app_assoc. f_equal. f_equal.
      apply map_filter_strong_ext. intros id pr.
      rewrite map_lookup_filter_Some. unfold labelled. simpl.
      rewrite not_elem_of_cons. naive_solver.
Qed.

(** Of what the first loop leaves in the flat mapping, the entries
    without a label of the fixed order are those of the mapping. *)
Lemma unlabelled_rest (lastStable : string) (flat : PullRequests) :
  filter unlabelled (flat_rest releaseNotesOrder lastStable flat)
  = filter unlabelled flat.
Proof.
  apply map_eq. intros prID. apply option_eq. intros pr.
  rewrite !map_lookup_filter_Some, flat_rest_lookup.
  unfold unlabelled. simpl. tauto.
Qed.

(** A call of [PrintReleaseNotes]: what it writes, with the items of
    every section as they are handed to [sort.Slice], and the change log
    it leaves. *)
Lemma PrintReleaseNotes_spec (cl : ChangeLog) :
  let lastStable := cl.(config).(LastStable) in
  ∃ itemss itemss',
    Forall2 (λ label items, items ≡ₚ main_items cl label)
            releaseNotesOrder itemss ∧
    Forall2 (λ label items, items ≡ₚ leftover_items cl label)
            releaseNotesOrder itemss' ∧
    PrintReleaseNotes cl =
    (mkChangeLog cl.(config)
       (backport_rest releaseNotesOrder cl.(prsWithUpstream))
       (filter unlabelled cl.(listOfPrs)),
     title_lines ++
     concat (zip_with stdout_section releaseNotesOrder
                      (sort_Slice less_lower <$> itemss)) ++
     (if decide (flat_rest releaseNotesOrder lastStable cl.(listOfPrs) = ∅)
      then []
      else EvStderr (msg_notice lastStable) ::
           concat (zip_with stderr_section releaseNotesOrder
                            (sort_Slice less_lower <$> itemss')))).
Proof.
  intros lastStable.
  unfold PrintReleaseNotes, main_pass.
  destruct (main_fold_sorted releaseNotesOrder NoDup_releaseNotesOrder cl
              title_lines) as (itemss & Hmain & Heq).
  fold title_lines. rewrite Heq. unfold leftover_pass. simpl listOfPrs.
  fold lastStable.
  set (rest := flat_rest releaseNotesOrder lastStable (listOfPrs cl)).
  pose proof (unlabelled_rest lastStable (listOfPrs cl)) as Hrest.
  fold rest in Hrest.
  destruct (decide (size rest = 0)) as [Hsize|Hsize].
  - apply map_size_empty_iff in Hsize.
    destruct (decide (rest = ∅)) as [_|?]; [|done].
    exists itemss, (leftover_items cl <$> releaseNotesOrder).
    split; [done|]. split.
    + apply Forall2_fmap_r, Forall_Forall2_diag, Forall_forall.
      intros label _. by unfold compose.
    + rewrite app_nil_r. f_equal. f_equal.
      rewrite <- Hrest, Hsize. symmetry. apply map_filter_empty.
  - destruct (decide (rest = ∅)) as [Hempty|_];
      [by apply map_size_empty_iff in Hempty|].
    match goal with
    | |- context [foldl leftover_category (?c, ?o) releaseNotesOrder] =>
        destruct (leftover_fold_sorted releaseNotesOrder
                    NoDup_releaseNotesOrder c o) as (itemss' & Hall & Heq')
    end.
    exists itemss, itemss'. split; [done|]. split.
    + eapply Forall2_impl_in; [done|]. intros label items Hin Hp.
      simpl in Hp. rewrite Hp. unfold leftover_items.
      apply fmap_Permutation.
      apply (filter_map_to_list_filter _ _ (flat_excludes label lastStable)).
      intros e. unfold flat_excludes, labelled. split.
      * intros [Hl Hr]. split; [done|].
        destruct (skipped lastStable e.2) eqn:Hs; [done|].
        destruct Hr. split; [by rewrite Hl|done].
      * intros [Hl Hs]. split; [done|]. intros [_ Hs']. congruence.
    + rewrite Heq'. simpl. rewrite <- Hrest.
      by rewrite <- !app_assoc.
Qed.

End PrintWhole.

(** ** PrintReleaseNotes: which lines are written, where, in which order *)

Section PrintMore.
Context `{rt : GoRuntime}.

Lemma main_items_elem (cl : ChangeLog) (label item : string) :
  item ∈ main_items cl label ↔
  (∃ bp inner prID pr,
     cl.(prsWithUpstream) !! bp = Some inner ∧ inner !! prID = Some pr ∧
     pr.(ReleaseLabel) = label ∧ item = fmt_backport pr bp prID) ∨
  (∃ prID pr,
     cl.(listOfPrs) !! prID = Some pr ∧ pr.(ReleaseLabel) = label ∧
     skipped cl.(config).(LastStable) pr = false ∧ item = fmt_flat pr prID).
Proof.
  unfold main_items. rewrite elem_of_app, !list_elem_of_fmap. split.
  - intros [([[bp prID] pr] & -> & Hin)|([prID pr] & -> & Hin)].
    + apply backport_entries_elem in Hin as (inner & ? & ? & ?).
      left. by exists bp, inner, prID, pr.
    + apply list_elem_of_filter in Hin as [[? ?] Hin%elem_of_map_to_list].
      right. by exists prID, pr.
  - intros [(bp & inner & prID & pr & ? & ? & ? & ->)
           |(prID & pr & ? & ? & ? & ->)].
    + left. exists (bp, prID, pr). split; [done|].
      apply backport_entries_elem. by exists inner.
    + right. exists (prID, pr). split; [done|].
      apply list_elem_of_filter. split; [done|].
      by apply elem_of_map_to_list.
Qed.

Lemma leftover_items_elem (cl : ChangeLog) (label item : string) :
  item ∈ leftover_items cl label ↔
  ∃ prID pr,
    cl.(listOfPrs) !! prID = Some pr ∧ pr.(ReleaseLabel) = label ∧
    skipped cl.(config).(LastStable) pr = true ∧ item = fmt_flat pr prID.
Proof.
  unfold leftover_items. rewrite list_elem_of_fmap. split.
  - intros ([prID pr] & -> & Hin).
    apply list_elem_of_filter in Hin as [[? ?] Hin%elem_of_map_to_list].
    by exists prID, pr.
  - intros (prID & pr & ? & ? & ? & ->).
    exists (prID, pr). split; [done|].
    apply list_elem_of_filter. split; [done|].
    by apply elem_of_map_to_list.
Qed.

(** The events of the sections of some categories: each is an event of
    the section of one of them. *)
Lemma elem_of_sections {A} (R : string → list string → Prop)
    (section : string → list string → list A)
    (labels : list string) (itemss : list (list string)) (ev : A) :
  Forall2 R labels itemss →
  ev ∈ concat (zip_with section labels (sort_Slice less_lower <$> itemss)) →
  ∃ label items,
    label ∈ labels ∧ R label items ∧
    ev ∈ section label (sort_Slice less_lower items).
Proof.
  induction 1 as [|label items labels itemss HR Hall IH]; simpl.
  - by intros ?%elem_of_nil.
  - intros [Hev|Hev]%elem_of_app.
    + exists label, items. split; [by left|done].
    + destruct (IH Hev) as (label' & items' & ? & ? & ?).
      exists label', items'. split; [by right|done].
Qed.

(** The section of each of the categories is part of the events of the
    sections. *)
Lemma sections_elem_of {A} (R : string → list string → Prop)
    (section : string → list string → list A)
    (labels : list string) (itemss : list (list string)) (label : string) :
  Forall2 R labels itemss → label ∈ labels →
  ∃ items,
    R label items ∧
    ∀ ev, ev ∈ section label (sort_Slice less_lower items) →
          ev ∈ concat (zip_with section labels
                                (sort_Slice less_lower <$> itemss)).
Proof.
  induction 1 as [|label' items labels itemss HR Hall IH]; simpl.
  - by intros ?%elem_of_nil.
  - intros [->|Hin]%elem_of_cons.
    + exists items. split; [done|]. intros ev Hev.
      apply elem_of_app. by left.
    + destruct (IH Hin) as (items' & ? & Hsub).
      exists items'. split; [done|]. intros ev Hev.
      apply elem_of_app. right. by apply Hsub.
Qed.

Lemma elem_of_stdout_section (label : string) (lines : list string)
    (ev : event) :
  ev ∈ stdout_section label lines ↔
  (lines ≠ [] ∧ ev ∈ stdout_header label) ∨
  (∃ item, item ∈ lines ∧ ev = EvStdout (item +:+ LF)).
Proof.
  unfold stdout_section. rewrite elem_of_app, list_elem_of_fmap.
  destruct lines as [|line lines].
  - rewrite elem_of_nil. naive_solver.
  - naive_solver.
Qed.

Lemma elem_of_stderr_section (label : string) (lines : list string)
    (ev : event) :
  ev ∈ stderr_section label lines ↔
  (lines ≠ [] ∧ ev ∈ stderr_header label) ∨
  (∃ item, item ∈ lines ∧ ev = EvStderr (Fprintf_format item)).
Proof.
  unfold stderr_section. rewrite elem_of_app, list_elem_of_fmap.
  destruct lines as [|line lines].
  - rewrite elem_of_nil. naive_solver.
  - naive_solver.
Qed.

Lemma elem_of_sorted (items : list string) (item : string) :
  item ∈ sort_Slice less_lower items ↔ item ∈ items.
Proof. by rewrite sort_Slice_perm. Qed.

Lemma flat_rest_empty (lastStable : string) (flat : PullRequests) :
  flat_rest releaseNotesOrder lastStable flat = ∅ ↔
  ∀ prID pr,
    flat !! prID = Some pr →
    pr.(ReleaseLabel) ∈ releaseNotesOrder ∧ skipped lastStable pr = false.
Proof.
  rewrite map_empty. split.
  - intros Hnone prID pr Hpr.
    specialize (Hnone prID). apply eq_None_not_Some in Hnone.
    destruct (skipped lastStable pr) eqn:Hs.
    + destruct Hnone. exists pr. apply flat_rest_lookup.
      split; [done|]. left. done.
    + split; [|done].
      destruct (decide (ReleaseLabel pr ∈ releaseNotesOrder)); [done|].
      destruct Hnone. exists pr. apply flat_rest_lookup.
      split; [done|]. by right.
  - intros Hall prID. apply eq_None_not_Some. intros [pr Hpr].
    apply flat_rest_lookup in Hpr as [Hpr Hor].
    destruct (Hall prID pr Hpr) as [? ?].
    destruct Hor; [congruence|done].
Qed.


(** X13 (lines 183-272): nothing else is printed. Every event of the
    output is a title line, an empty line, a header of a category of the
    fixed order or the notice, or it is the line of a pull request of
    one of the two mappings that carries a label of the fixed order: on
    the standard output for an entry of an inner mapping and for an
    entry of the flat mapping that is not passed over, on the error
    stream for one that is. *)
Theorem every_line_is_of_an_entry (cl : ChangeLog) (ev : event) :
  ev ∈ (PrintReleaseNotes cl).2 →
  let lastStable := cl.(config).(LastStable) in
  is_frame lastStable ev ∨
  (∃ bp inner prID pr,
     cl.(prsWithUpstream) !! bp = Some inner ∧ inner !! prID = Some pr ∧
     pr.(ReleaseLabel) ∈ releaseNotesOrder ∧
     ev = EvStdout (fmt_backport pr bp prID +:+ LF)) ∨
  (∃ prID pr,
     cl.(listOfPrs) !! prID = Some pr ∧
     pr.(ReleaseLabel) ∈ releaseNotesOrder ∧
     ev = if skipped lastStable pr
          then EvStderr (Fprintf_format (fmt_flat pr prID))
          else EvStdout (fmt_flat pr prID +:+ LF)).
Proof.
  intros Hev lastStable.
  destruct (PrintReleaseNotes_spec cl)
    as (itemss & itemss' & Hmain & Hleft & Heq).
  rewrite Heq in Hev. cbn [snd] in Hev. fold lastStable in Hev.
  apply elem_of_app in Hev as [Hev|Hev]; [by left; left|].
  apply elem_of_app in Hev as [Hev|Hev].
  - apply (elem_of_sections _ stdout_section _ _ _ Hmain) in Hev
      as (label & items & Hlabel & Hitems & Hev).
    apply elem_of_stdout_section in Hev as [[_ Hev]|(item & Hitem & ->)].
    + left. unfold stdout_header in Hev.
      apply elem_of_cons in Hev as [->|Hev]; [by right; left|].
      apply list_elem_of_singleton in Hev as ->.
      right. right. right. exists label. split; [done|by left].
    + apply (proj1 (elem_of_sorted _ _)) in Hitem. rewrite Hitems in Hitem.
      apply main_items_elem in Hitem
        as [(bp & inner & prID & pr & ? & ? & <- & ->)
           |(prID & pr & ? & <- & Hs & ->)].
      * right. left. by exists bp, inner, prID, pr.
      * right. right. exists prID, pr. fold lastStable in Hs.
        by rewrite Hs.
  - destruct (decide (flat_rest _ _ _ = ∅)) as [_|_];
      [by apply elem_of_nil in Hev|].
    apply elem_of_cons in Hev as [->|Hev]; [by left; right; right; left|].
    apply (elem_of_sections _ stderr_section _ _ _ Hleft) in Hev
      as (label & items & Hlabel & Hitems & Hev).
    apply elem_of_stderr_section in Hev as [[_ Hev]|(item & Hitem & ->)].
    + left. unfold stderr_header in Hev.
      apply list_elem_of_singleton in Hev as ->.
      right. right. right. exists label. split; [done|by right].
    + apply (proj1 (elem_of_sorted _ _)) in Hitem. rewrite Hitems in Hitem.
      apply leftover_items_elem in Hitem as (prID & pr & ? & <- & Hs & ->).
      right. right. exists prID, pr. fold lastStable in Hs.
      by rewrite Hs.
Qed.

Lemma Forall_sections {A} (P : A → Prop)
    (section : string → list string → list A) :
  (∀ label lines, Forall P (section label lines)) →
  ∀ labels liness, Forall P (concat (zip_with section labels liness)).
Proof.
  intros Hsec labels.
  induction labels as [|label labels IH]; intros [|lines liness]; simpl;
    try by constructor.
  apply Forall_app. split; [apply Hsec|apply IH].
Qed.

(** X14 (lines 183-272): the output is what is written on the standard
    output followed by what is written on the error stream: no write on
    the standard output comes after one on the error stream. Nothing is
    written on the error stream exactly when every entry of the flat
    mapping carries a label of the fixed order and is not passed over as
    already released. *)
Theorem stdout_before_stderr (cl : ChangeLog) :
  ∃ out err,
    (PrintReleaseNotes cl).2 = out ++ err ∧
    Forall (λ ev, is_stderr ev = false) out ∧
    Forall (λ ev, is_stderr ev = true) err ∧
    (err = [] ↔
     ∀ prID pr,
       cl.(listOfPrs) !! prID = Some pr →
       pr.(ReleaseLabel) ∈ releaseNotesOrder ∧
       skipped cl.(config).(LastStable) pr = false).
Proof.
  destruct (PrintReleaseNotes_spec cl)
    as (itemss & itemss' & _ & _ & ->). cbn [snd].
  eexists (title_lines ++ _), _. split; [by rewrite <- app_assoc|].
  split; [|split].
  - apply Forall_app. split; [by repeat constructor|].
    apply Forall_sections. intros label lines. unfold stdout_section.
    apply Forall_app. split.
    + destruct lines; by repeat constructor.
    + by apply Forall_fmap, Forall_forall.
  - case_decide; [constructor|]. constructor; [done|].
    apply Forall_sections. intros label lines. unfold stderr_section.
    apply Forall_app. split.
    + destruct lines; by repeat constructor.
    + by apply Forall_fmap, Forall_forall.
  - rewrite <- flat_rest_empty. by case_decide.
Qed.


Lemma sections_nil {A} (f : string → list string)
    (section : string → list string → list A)
    (labels : list string) (itemss : list (list string)) :
  (∀ label, section label [] = []) →
  Forall2 (λ label items, items ≡ₚ f label) labels itemss →
  (∀ label, label ∈ labels → f label = []) →
  concat (zip_with section labels (sort_Slice less_lower <$> itemss)) = [].
Proof.
  intros Hsec.
  induction 1 as [|label items labels itemss Hp Hall IH]; intros Hnil;
    [done|].
  rewrite fmap_cons. cbn [zip_with concat].
  rewrite IH by (intros label' ?; apply Hnil; by right).
  rewrite (Hnil label) in Hp by (by left).
  apply Permutation_nil_r in Hp as ->.
  assert (sort_Slice less_lower [] = []) as ->.
  { apply Permutation_nil_r, sort_Slice_perm. }
  by rewrite Hsec.
Qed.

(** A change log without an entry that carries a label of the fixed
    order: a call writes the title lines, and the notice when the flat
    mapping is not empty, and leaves the change log as it is. *)
Lemma PrintReleaseNotes_spent (cl : ChangeLog) :
  (∀ prID pr,
     cl.(listOfPrs) !! prID = Some pr →
     pr.(ReleaseLabel) ∉ releaseNotesOrder) →
  (∀ bp inner prID pr,
     cl.(prsWithUpstream) !! bp = Some inner → inner !! prID = Some pr →
     pr.(ReleaseLabel) ∉ releaseNotesOrder) →
  PrintReleaseNotes cl =
  (cl, title_lines ++
       if decide (listOfPrs cl = ∅) then []
       else [EvStderr (msg_notice cl.(config).(LastStable))]).
Proof.
  intros Hflat Hinner.
  destruct (PrintReleaseNotes_spec cl)
    as (itemss & itemss' & Hmain & Hleft & ->).
  assert (flat_rest releaseNotesOrder (LastStable (config cl)) (listOfPrs cl)
          = listOfPrs cl) as ->.
  { apply map_eq. intros prID. apply option_eq. intros pr.
    rewrite flat_rest_lookup. split; [tauto|]. intros Hpr.
    split; [done|]. right. by eapply Hflat. }
  rewrite (sections_nil (main_items cl) stdout_section); [|done|done|].
  rewrite (sections_nil (leftover_items cl) stderr_section); [|done|done|].
  - f_equal. destruct cl as [cfg outer flat]. simpl in *. f_equal.
    + unfold backport_rest. apply map_eq. intros bp. rewrite lookup_fmap.
      destruct (outer !! bp) as [inner|] eqn:Hbp; [|done]. simpl. f_equal.
      apply map_filter_id. intros prID pr Hpr. by eapply Hinner.
    + apply map_filter_id. intros prID pr Hpr. by eapply Hflat.
  - intros label Hlabel. apply elem_of_nil_inv. intros item.
    rewrite leftover_items_elem. intros (prID & pr & Hpr & <- & _).
    by eapply Hflat.
  - intros label Hlabel. apply elem_of_nil_inv. intros item.
    rewrite main_items_elem.
    intros [(bp & inner & prID & pr & Hbp & Hpr & <- & _)
           |(prID & pr & Hpr & <- & _)].
    + by eapply Hinner.
    + by eapply Hflat.
Qed.

(** X16 (lines 182-273): a second call on the same change log prints no
    pull request. It writes the title lines and nothing else, but for
    the notice when the flat mapping still holds an entry, which then
    carries a label that is none of the fixed order; it leaves the
    change log as the first call left it. *)
Theorem second_call_prints_no_entry (cl : ChangeLog) :
  let first := PrintReleaseNotes cl in
  PrintReleaseNotes first.1 =
  (first.1,
   title_lines ++
   if decide (listOfPrs first.1 = ∅) then []
   else [EvStderr (msg_notice cl.(config).(LastStable))]).
Proof.
  intros first. unfold first.
  destruct (PrintReleaseNotes_spec cl) as (itemss & itemss' & _ & _ & ->).
  cbn [fst].
  apply (PrintReleaseNotes_spent
           (mkChangeLog (config cl)
              (backport_rest releaseNotesOrder (prsWithUpstream cl))
              (filter unlabelled (listOfPrs cl)))).
  - intros prID pr. simpl. by intros [_ ?]%map_lookup_filter_Some.
  - intros bp inner prID pr. simpl. unfold backport_rest.
    rewrite lookup_fmap.
    destruct (prsWithUpstream cl !! bp) as [inner0|]; [|done].
    intros [= <-]. by intros [_ ?]%map_lookup_filter_Some.
Qed.

Lemma string_app_cons (c : ascii) (s t : string) :
  String c s +:+ t = String c (s +:+ t).
Proof. done. Qed.

Lemma prefix_spec (sub s : string) :
  String.prefix sub s = true ↔ ∃ post, s = sub +:+ post.
Proof.
  revert s. induction sub as [|c sub IH]; intros s.
  - split; [by exists s|]. by destruct s.
  - destruct s as [|d s]; simpl.
    + split; [done|]. by intros [post ?].
    + destruct (ascii_dec c d) as [->|Hne].
      * rewrite IH. split; intros [post Hpost]; exists post.
        -- by rewrite string_app_cons, <- Hpost.
        -- rewrite string_app_cons in Hpost. by injection Hpost.
      * split; [done|]. intros [post Hpost].
        rewrite string_app_cons in Hpost. by injection Hpost.
Qed.

(** [strings.Contains] finds the substrings. *)
Lemma Contains_spec (s sub : string) :
  Contains s sub = true ↔ substring_of sub s.
Proof.
  unfold substring_of. induction s as [|c s IH].
  - change (Contains "" sub) with (String.prefix sub "" || false).
    rewrite orb_false_r, prefix_spec. split.
    + intros [post ->]. by exists "", post.
    + intros ([|d pre] & post & H); [by exists post|done].
  - change (Contains (String c s) sub)
      with (String.prefix sub (String c s) || Contains s sub).
    rewrite orb_true_iff, IH, prefix_spec. split.
    + intros [[post ->]|(pre & post & ->)]; [by exists "", post|].
      by exists (String c pre), post.
    + intros ([|d pre] & post & H); [left; by exists post|right].
      rewrite string_app_cons in H. injection H as -> ->.
      by exists pre, post.
Qed.

(** The loop over the branches at lines 214-218 looks for one branch
    that contains the string. *)
Lemma backported_spec (lastStable : string) (pr : PullRequest) :
  backported lastStable pr = true ↔
  ∃ bb, bb ∈ pr.(BackportBranches) ∧ Contains bb lastStable = true.
Proof.
  unfold backported.
  assert (∀ l b,
            foldl (λ b bb, if Contains bb lastStable then true else b) b l
            = true ↔
            b = true ∨ ∃ bb, bb ∈ l ∧ Contains bb lastStable = true) as H.
  { induction l as [|bb l IH]; intros b; simpl.
    - split; [by left|]. intros [?|(bb & ?%elem_of_nil & _)]; done.
    - rewrite IH. split.
      + intros [Hb|(bb' & ? & ?)].
        * destruct (Contains bb lastStable) eqn:Hc; [|by left].
          right. exists bb. split; [by left|done].
        * right. exists bb'. split; [by right|done].
      + intros [->|(bb' & [->|?]%elem_of_cons & Hc)].
        * left. by destruct (Contains bb lastStable).
        * left. by rewrite Hc.
        * right. by exists bb'. }
  rewrite H. naive_solver.
Qed.

(** X17 (lines 212-221): an entry of the flat mapping is passed over as
    already released exactly when the last-stable string is not empty
    and occurs in one of the branches the pull request was backported
    to, anywhere in its name. *)
Theorem skipped_iff_branch_contains (lastStable : string)
    (pr : PullRequest) :
  skipped lastStable pr = true ↔
  lastStable ≠ "" ∧
  ∃ bb, bb ∈ pr.(BackportBranches) ∧ substring_of lastStable bb.
Proof.
  unfold skipped, is_empty.
  rewrite andb_true_iff, negb_true_iff, backported_spec.
  rewrite String.eqb_neq.
  split; intros [? (bb & ? & Hc)]; (split; [done|]); exists bb;
    (split; [done|]); by apply Contains_spec.
Qed.

Lemma lower_le_total (a b : string) : lower_le a b ∨ lower_le b a.
Proof.
  unfold lower_le, less_lower, String.ltb.
  rewrite String.compare_antisym.
  destruct (String.compare (ToLower a) (ToLower b)); simpl; auto.
Qed.


(** X19 (lines 31-47): the labels of [releaseNotesOrder] are the keys of
    [releaseNotes], each of them once: every category that is scanned
    has a header, which is not the empty string, and no header is left
    without a scan. *)
Theorem every_category_has_a_header (label : string) :
  NoDup releaseNotesOrder ∧
  (label ∈ releaseNotesOrder ↔ is_Some (releaseNotes !! label)) ∧
  (label ∈ releaseNotesOrder → releaseNotes_at label ≠ "").
Proof.
  split; [apply NoDup_releaseNotesOrder|].
  assert (Hin : label ∈ releaseNotesOrder →
                is_Some (releaseNotes !! label) ∧ releaseNotes_at label ≠ "").
  { unfold releaseNotesOrder. rewrite !elem_of_cons, elem_of_nil.
    intros [->|[->|[->|[->|[->|[->|[]]]]]]]; split;
      apply (bool_decide_unpack _); by vm_compute. }
  split; [split|]; [apply Hin| |apply Hin].
  intros [header Hheader]. unfold releaseNotes in Hheader.
  apply elem_of_list_to_map in Hheader.
  - rewrite !elem_of_cons, elem_of_nil in Hheader.
    unfold releaseNotesOrder. rewrite !elem_of_cons.
    destruct Hheader as [H|[H|[H|[H|[H|[H|[]]]]]]]; injection H as -> _;
      auto 10.
  - apply (bool_decide_unpack _). by vm_compute.
Qed.

End PrintMore.

(** ** More calls of PrintReleaseNotes on the fixtures *)

Section PrintMoreRuns.
Import Fixtures.


Lemma every_line_is_of_an_entry_witness :
  let ev := EvStderr "* Fix X (#10, @alice)" in
  @is_frame runtime "1.0" ev ∨
  (∃ bp inner prID pr,
     prsWithUpstream cl_released !! bp = Some inner ∧
     inner !! prID = Some pr ∧
     pr.(ReleaseLabel) ∈ releaseNotesOrder ∧
     ev = EvStdout (fmt_backport pr bp prID +:+ LF)) ∨
  (∃ prID pr,
     listOfPrs cl_released !! prID = Some pr ∧
     pr.(ReleaseLabel) ∈ releaseNotesOrder ∧
     ev = if skipped "1.0" pr
          then EvStderr (@Fprintf_format runtime (fmt_flat pr prID))
          else EvStdout (fmt_flat pr prID +:+ LF)).
Proof.
  intros ev.
  apply (@every_line_is_of_an_entry runtime cl_released ev).
  vm_compute. repeat constructor.
Defined.

Lemma stdout_before_stderr_witness :
  ∃ out err,
    (@PrintReleaseNotes runtime cl_released).2 = out ++ err ∧
    Forall (λ ev, is_stderr ev = false) out ∧
    Forall (λ ev, is_stderr ev = true) err ∧
    (err = [] ↔
     ∀ prID pr,
       listOfPrs cl_released !! prID = Some pr →
       pr.(ReleaseLabel) ∈ releaseNotesOrder ∧ skipped "1.0" pr = false).
Proof. exact (@stdout_before_stderr runtime cl_released). Defined.


Lemma second_call_prints_no_entry_witness :
  (@PrintReleaseNotes runtime (@PrintReleaseNotes runtime cl_released).1).2
  = title_lines ∧
  (@PrintReleaseNotes runtime (@PrintReleaseNotes runtime cl_odd).1).2
  = title_lines ++ [EvStderr (msg_notice "1.0")].
Proof.
  split.
  - exact (f_equal snd (@second_call_prints_no_entry runtime cl_released)).
  - exact (f_equal snd (@second_call_prints_no_entry runtime cl_odd)).
Defined.

Lemma skipped_iff_branch_contains_witness :
  skipped "1.1" (mkPullRequest "Fix X" "release-note/bug" "alice" ["v1.10"])
  = true.
Proof.
  apply (proj2 (skipped_iff_branch_contains "1.1"
                  (mkPullRequest "Fix X" "release-note/bug" "alice"
                                 ["v1.10"]))).
  split; [discriminate|].
  exists "v1.10". split; [repeat constructor|].
  exists "v", "0". reflexivity.
Defined.


Lemma every_category_has_a_header_witness :
  is_Some (releaseNotes !! "release-note/bug") ∧
  releaseNotes_at "release-note/bug" ≠ "".
Proof.
  destruct (every_category_has_a_header "release-note/bug")
    as (_ & Hkey & Hheader).
  assert ("release-note/bug" ∈ releaseNotesOrder) as Hin
    by (vm_compute; repeat constructor).
  split; [exact (proj1 Hkey Hin)|exact (Hheader Hin)].
Defined.

End PrintMoreRuns.
